(** * CaDiCaL clause objects and the reduce policy

    A shallow embedding of [clause.hpp] (the [Clause] object, its accessors,
    its layout arithmetic and the comparison functors) and of the reduce
    module of [Internal] (reason protection, the reduction policy and the
    reduce scheduler), followed by the properties of the clause database
    established on it.

    Conventions.
    - C++ integers ([int], [long], bit-fields) are values in [Z]; the places
      where the language wraps ([size_t] arithmetic, the store into the
      25-bit [glue] bit-field) have the wrap-around written out.  Signed
      counters ([long] statistics and limits) are never wrapped: signed
      overflow is undefined in C++, so they are plain integers.
    - A [Clause *] is an address in [Z]; the clause heap is a finite map from
      addresses to clause records, so that two handles to one clause alias.
    - A failed [assert] and a dereference of a pointer that owns no clause
      both abort the computation: fallible code returns [option]. *)

From stdpp Require Import base option list gmap sorting.

Open Scope Z_scope.

(** ** Machine arithmetic *)

(** Store of an integer into a signed bit-field of [w] bits (two's
    complement truncation). *)
Definition signed_wrap (w z : Z) : Z :=
  (z + 2 ^ (w - 1)) `mod` 2 ^ w - 2 ^ (w - 1).

(** Conversion to an unsigned type of [w] bits. *)
Definition unsigned_wrap (w z : Z) : Z := z `mod` 2 ^ w.

Definition LD_MAX_GLUE : Z := 25.
Definition MAX_GLUE : Z := Z.shiftl 1 (LD_MAX_GLUE - 1) - 1.

(** What [sizeof] yields on the platform the solver is compiled for.  The
    values are fixed by the compiler's data model, not by the sources. *)
Record Layout := mkLayout {
  sizeof_Clause : Z;        (* sizeof (Clause) *)
  sizeof_analyzed : Z;      (* sizeof _analyzed, a 'long' *)
  sizeof_pos : Z;           (* sizeof _pos, an 'int' *)
  sizeof_int : Z;           (* sizeof (int), one literal *)
  size_t_bits : Z           (* width of 'size_t' *)
}.

(** Sample values, those of the LP64 data model: a [long] of 8 bytes, an
    [int] of 4, and a record [Clause] of 40 bytes (the two prefix fields in
    12 bytes, the presence bits and flags, [glue] in a word of its own at
    byte 16, [blocked], [size], and the union aligned at byte 32). *)
Definition LP64 : Layout :=
  {| sizeof_Clause := 40; sizeof_analyzed := 8; sizeof_pos := 4;
     sizeof_int := 4; size_t_bits := 64 |}.

(** ** The clause object *)

Module Clause.

  (** The fields of [class Clause].  The anonymous union shares the storage
      of [literals] with the forwarding pointer [copy], which only the
      moving collector writes; the functions embedded here see [literals]. *)
Record t := mk {
    _analyzed : Z;          (* time stamp when analyzed last time *)
    _pos : Z;               (* position of last watch replacement *)
    have_analyzed : bool;   (* have.analyzed *)
    have_pos : bool;        (* have.pos *)
    redundant : bool;
    garbage : bool;
    reason : bool;
    moved : bool;
    glue : Z;               (* signed int glue : LD_MAX_GLUE *)
    blocked : Z;
    size : Z;
    literals : list Z
  }.

Definition set_pos (v : Z) (c : t) : t :=
    mk (_analyzed c) v (have_analyzed c) (have_pos c) (redundant c)
       (garbage c) (reason c) (moved c) (glue c) (blocked c) (size c)
       (literals c).

Definition set_glue (v : Z) (c : t) : t :=
    mk (_analyzed c) (_pos c) (have_analyzed c) (have_pos c) (redundant c)
       (garbage c) (reason c) (moved c) v (blocked c) (size c) (literals c).

Definition set_garbage (b : bool) (c : t) : t :=
    mk (_analyzed c) (_pos c) (have_analyzed c) (have_pos c) (redundant c)
       b (reason c) (moved c) (glue c) (blocked c) (size c) (literals c).

Definition set_reason (b : bool) (c : t) : t :=
    mk (_analyzed c) (_pos c) (have_analyzed c) (have_pos c) (redundant c)
       (garbage c) b (moved c) (glue c) (blocked c) (size c) (literals c).

Definition set_size (v : Z) (c : t) : t :=
    mk (_analyzed c) (_pos c) (have_analyzed c) (have_pos c) (redundant c)
       (garbage c) (reason c) (moved c) (glue c) (blocked c) v (literals c).

  (** [analyzed ()]: [assert (have.analyzed); return _analyzed;] *)
Definition analyzed (c : t) : option Z :=
    if have_analyzed c then Some (_analyzed c) else None.

  (** [pos ()]: [assert (have.pos); return _pos;] *)
Definition pos (c : t) : option Z :=
    if have_pos c then Some (_pos c) else None.

  (** [update_after_shrinking ()].  The conjunction short-circuits, so
      [_pos] is compared only when [have.pos] holds. *)
Definition update_after_shrinking (c : t) : option t :=
    if bool_decide (2 ≤ size c) then
      let c1 :=
        if have_pos c && bool_decide (size c ≤ _pos c)
        then set_pos 2 c else c in
      let c2 :=
        if bool_decide (size c1 < glue c1)
        then set_glue (signed_wrap LD_MAX_GLUE (size c1)) c1 else c1 in
      Some c2
    else None.

  (** [offset ()] *)
Definition offset (L : Layout) (c : t) : Z :=
    let res := 0 in
    let res :=
      if negb (have_pos c)
      then unsigned_wrap (size_t_bits L) (res + sizeof_pos L) else res in
    let res :=
      if negb (have_analyzed c)
      then unsigned_wrap (size_t_bits L) (res + sizeof_analyzed L) else res in
    res.

  (** [bytes ()]: the whole expression is evaluated in [size_t]. *)
Definition bytes (L : Layout) (c : t) : Z :=
    let w := size_t_bits L in
    unsigned_wrap w
      (unsigned_wrap w
         (sizeof_Clause L
          + unsigned_wrap w (unsigned_wrap w (size c - 2) * sizeof_int L))
       - offset L c).

  (** [start ()]: [offset () + (char* ) this], for the clause at address
      [this]. *)
Definition start (L : Layout) (this : Z) (c : t) : Z :=
    offset L c + this.

End Clause.

(** The values [sizeof] can take: positive, the optional prefix fields lie
    inside the header, and [size_t] can hold the size of the header. *)
Definition layout_ok (L : Layout) : Prop :=
  0 < sizeof_pos L ∧ 0 < sizeof_analyzed L ∧ 0 < sizeof_int L ∧
  sizeof_pos L + sizeof_analyzed L ≤ sizeof_Clause L ∧
  sizeof_Clause L < 2 ^ size_t_bits L ∧ 0 < size_t_bits L.

(** ** Comparison functors

    The functors receive [Clause *] arguments and read the clauses through
    them; [h] is the clause heap the pointers refer to. *)

(** [analyzed_earlier]: [a->analyzed () < b->analyzed ()] *)
Definition analyzed_earlier (h : gmap Z Clause.t) (a b : Z) : option bool :=
  ca ← h !! a; cb ← h !! b;
  ta ← Clause.analyzed ca; tb ← Clause.analyzed cb;
  Some (bool_decide (ta < tb)).

(** [less_usefull] *)
Definition less_usefull (h : gmap Z Clause.t) (c d : Z) : option bool :=
  cc ← h !! c; cd ← h !! d;
  if bool_decide (Clause.glue cd < Clause.glue cc) then Some true
  else if bool_decide (Clause.glue cc < Clause.glue cd) then Some false
  else analyzed_earlier h c d.

(** ** [std::sort]

    The standard library only promises that [std::sort] leaves a
    permutation of the range in which no element compares less than an
    element before it, provided the comparison is a strict weak ordering
    of the elements; the order of equivalent elements is unspecified.  The
    policy is therefore embedded over an arbitrary sorting routine that
    meets this contract.  The comparison is fallible (it may trip an
    assertion), and so is the routine. *)

Definition sorter : Type :=
  ∀ A : Type, (A → A → option bool) → list A → option (list A).

Section sort_contract.
Context {A : Type} (cmp : A → A → option bool).

  (** No assertion fails and the comparison is irreflexive and transitive
      with a transitive incomparability, on the elements of [l]. *)
Definition strict_weak_on (l : list A) : Prop :=
    (∀ x y, x ∈ l → y ∈ l → is_Some (cmp x y)) ∧
    (∀ x, x ∈ l → cmp x x = Some false) ∧
    (∀ x y z, x ∈ l → y ∈ l → z ∈ l →
       cmp x y = Some true → cmp y z = Some true → cmp x z = Some true) ∧
    (∀ x y z, x ∈ l → y ∈ l → z ∈ l →
       cmp x y = Some false → cmp y x = Some false →
       cmp y z = Some false → cmp z y = Some false →
       cmp x z = Some false ∧ cmp z x = Some false).

  (** [y] may stand after [x]: [comp (y, x)] is false. *)
Definition not_after (x y : A) : Prop := cmp y x = Some false.

Definition sorted_by (l : list A) : Prop := StronglySorted not_after l.

  (** Straight insertion, one instance of the contract. *)
Fixpoint insert_by (x : A) (l : list A) : option (list A) :=
    match l with
    | [] => Some [x]
    | y :: l' =>
        b ← cmp x y;
        if b : bool then Some (x :: y :: l')
        else r ← insert_by x l'; Some (y :: r)
    end.

Fixpoint insertion_sort_by (l : list A) : option (list A) :=
    match l with
    | [] => Some []
    | x :: l' => s ← insertion_sort_by l'; insert_by x s
    end.
End sort_contract.

Definition std_sort_contract (sort : sorter) : Prop :=
  ∀ (A : Type) (cmp : A → A → option bool) (l : list A),
    strict_weak_on cmp l →
    ∃ l', sort A cmp l = Some l' ∧ l' ≡ₚ l ∧ sorted_by cmp l'.

Definition insertion_sort : sorter := λ A cmp l, insertion_sort_by cmp l.

(** Insertion after reversing the range: a second instance, which leaves
    equivalent elements in the opposite order. *)
Definition reversed_insertion_sort : sorter :=
  λ A cmp l, insertion_sort_by cmp (reverse l).

(** ** The solver state *)

Module Opts.
Record t := mk { reduce : bool; reduceglue : bool }.
End Opts.

Module Stats.
  (** The counters of [Stats] that the reduce module touches (all
      'long'). *)
Record t := mk {
    conflicts : Z; analyzed : Z; reduced : Z; reductions : Z; redundant : Z
  }.
Definition set_reduced (v : Z) (s : t) : t :=
    mk (conflicts s) (analyzed s) v (reductions s) (redundant s).
Definition set_reductions (v : Z) (s : t) : t :=
    mk (conflicts s) (analyzed s) (reduced s) v (redundant s).
End Stats.

Module Lim.
Record t := mk {
    reduce : Z; analyzed : Z; keptsize : Z; keptglue : Z;
    conflicts_at_last_reduce : Z
  }.
Definition set_reduce (v : Z) (l : t) : t :=
    mk v (analyzed l) (keptsize l) (keptglue l) (conflicts_at_last_reduce l).
Definition set_analyzed (v : Z) (l : t) : t :=
    mk (reduce l) v (keptsize l) (keptglue l) (conflicts_at_last_reduce l).
Definition set_keptsize (v : Z) (l : t) : t :=
    mk (reduce l) (analyzed l) v (keptglue l) (conflicts_at_last_reduce l).
Definition set_keptglue (v : Z) (l : t) : t :=
    mk (reduce l) (analyzed l) (keptsize l) v (conflicts_at_last_reduce l).
Definition set_conflicts_at_last_reduce (v : Z) (l : t) : t :=
    mk (reduce l) (analyzed l) (keptsize l) (keptglue l) v.
End Lim.

Module Inc.
Record t := mk { reduce : Z; redinc : Z }.
Definition set_reduce (v : Z) (i : t) : t := mk v (redinc i).
Definition set_redinc (v : Z) (i : t) : t := mk (reduce i) v.
End Inc.

Module Var.
  (** [reason] is a [Clause *]: [None] is the null pointer. *)
Record t := mk { level : Z; reason : option Z }.
End Var.

(** The members of [Internal] that the reduce module reads or writes.  [heap]
    is the storage the clause pointers in [clauses] and in the variable
    table point into. *)
Record Internal := mkInternal {
  opts : Opts.t;
  stats : Stats.t;
  lim : Lim.t;
  inc : Inc.t;
  clauses : list Z;
  heap : gmap Z Clause.t;
  trail : list Z;
  vtab : gmap Z Var.t
}.

Definition set_stats (v : Stats.t) (s : Internal) : Internal :=
  mkInternal (opts s) v (lim s) (inc s) (clauses s) (heap s) (trail s)
             (vtab s).
Definition set_lim (v : Lim.t) (s : Internal) : Internal :=
  mkInternal (opts s) (stats s) v (inc s) (clauses s) (heap s) (trail s)
             (vtab s).
Definition set_inc (v : Inc.t) (s : Internal) : Internal :=
  mkInternal (opts s) (stats s) (lim s) v (clauses s) (heap s) (trail s)
             (vtab s).
Definition set_heap (v : gmap Z Clause.t) (s : Internal) : Internal :=
  mkInternal (opts s) (stats s) (lim s) (inc s) (clauses s) v (trail s)
             (vtab s).

(** ** Reason protection *)

(** Modelled from the spec: [Internal::var] is declared in [internal.hpp],
    which is not among the sources; the absolute value of a literal
    identifies its variable, whose record the variable table holds. *)
Definition var (s : Internal) (lit : Z) : option Var.t :=
  vtab s !! Z.abs lit.

(** The loop of [protect_reasons] over the trail from [tr] on. *)
Fixpoint protect_reasons_from (tr : list Z) (s : Internal)
  : option Internal :=
  match tr with
  | [] => Some s
  | lit :: tr' =>
      v ← var s lit;
      if bool_decide (Var.level v = 0) then protect_reasons_from tr' s
      else match Var.reason v with
           | None => protect_reasons_from tr' s
           | Some r =>
               c ← heap s !! r;
               protect_reasons_from tr'
                 (set_heap (<[r := Clause.set_reason true c]> (heap s)) s)
           end
  end.

Definition protect_reasons (s : Internal) : option Internal :=
  protect_reasons_from (trail s) s.

(** The loop of [unprotect_reasons]; [assert (v.reason->reason)] guards the
    reset of the flag. *)
Fixpoint unprotect_reasons_from (tr : list Z) (s : Internal)
  : option Internal :=
  match tr with
  | [] => Some s
  | lit :: tr' =>
      v ← var s lit;
      if bool_decide (Var.level v = 0) then unprotect_reasons_from tr' s
      else match Var.reason v with
           | None => unprotect_reasons_from tr' s
           | Some r =>
               c ← heap s !! r;
               if Clause.reason c then
                 unprotect_reasons_from tr'
                   (set_heap (<[r := Clause.set_reason false c]> (heap s)) s)
               else None
           end
  end.

Definition unprotect_reasons (s : Internal) : option Internal :=
  unprotect_reasons_from (trail s) s.

(** ** The reduction policy *)

(** Modelled from the spec: [Internal::mark_garbage] is defined in a file
    that is not among the sources; marking sets the [garbage] bit of the
    clause and frees nothing. *)
Definition mark_garbage (p : Z) (s : Internal) : option Internal :=
  c ← heap s !! p;
  Some (set_heap (<[p := Clause.set_garbage true c]> (heap s)) s).

(** The tests of the selection loop on the clause [c] points to: [true]
    when the loop reaches [stack.push_back (c)]. *)
Definition selected (s : Internal) (p : Z) : option bool :=
  c ← heap s !! p;
  if negb (Clause.redundant c) then Some false
  else if bool_decide (Clause.blocked c ≠ 0) then Some false
  else if Clause.reason c then Some false
  else if Clause.garbage c then Some false
  else if negb (Clause.have_analyzed c) then Some false
  else
    t ← Clause.analyzed c;
    if bool_decide (Lim.analyzed (lim s) < t) then Some false
    else Some true.

(** The selection loop over the registry from [cs] on, pushing on
    [stack]. *)
Fixpoint select_from (s : Internal) (cs stack : list Z) : option (list Z) :=
  match cs with
  | [] => Some stack
  | p :: cs' =>
      b ← selected s p;
      select_from s cs' (if b : bool then stack ++ [p] else stack)
  end.

Definition candidates (s : Internal) : option (list Z) :=
  select_from s (clauses s) [].

(** The functor handed to [std::sort]. *)
Definition reduce_order (s : Internal) : Z → Z → option bool :=
  if Opts.reduceglue (opts s) then less_usefull (heap s)
  else analyzed_earlier (heap s).

(** The marking loop over [stack.begin ()] up to [target]. *)
Fixpoint mark_from (ps : list Z) (s : Internal) : option Internal :=
  match ps with
  | [] => Some s
  | p :: ps' =>
      s1 ← mark_garbage p s;
      mark_from ps'
        (set_stats (Stats.set_reduced (Stats.reduced (stats s1) + 1)
                      (stats s1)) s1)
  end.

(** The loop over [target] up to [stack.end ()] that records the kept
    profile. *)
Fixpoint scan_kept_from (ps : list Z) (s : Internal) : option Internal :=
  match ps with
  | [] => Some s
  | p :: ps' =>
      c ← heap s !! p;
      let s1 :=
        if bool_decide (Lim.keptsize (lim s) < Clause.size c)
        then set_lim (Lim.set_keptsize (Clause.size c) (lim s)) s else s in
      let s2 :=
        if bool_decide (Lim.keptglue (lim s1) < Clause.glue c)
        then set_lim (Lim.set_keptglue (Clause.glue c) (lim s1)) s1
        else s1 in
      scan_kept_from ps' s2
  end.

(** [Internal::mark_useless_redundant_clauses_as_garbage].  The call
    [stack.reserve (stats.redundant)] only sizes the buffer and the
    [LOG]/[VRB] lines only print. *)
Definition mark_useless_redundant_clauses_as_garbage
    (sort : sorter) (s : Internal) : option Internal :=
  stack ← candidates s;
  stack ← sort Z (reduce_order s) stack;
  let target := (length stack / 2)%nat in
  s ← mark_from (take target stack) s;
  let s := set_lim (Lim.set_keptglue 0 (lim s)) s in
  let s := set_lim (Lim.set_keptsize (Lim.keptglue (lim s)) (lim s)) s in
  scan_kept_from (drop target stack) s.

(** ** The reduce scheduler *)

(** [Internal::reducing] *)
Definition reducing (s : Internal) : bool :=
  if negb (Opts.reduce (opts s)) then false
  else bool_decide (Lim.reduce (lim s) ≤ Stats.conflicts (stats s)).

Section reduce.

(** [std::sort], and the two members of [Internal] that [reduce] calls but
    that are defined elsewhere in the solver. *)
Variable sort : sorter.
Variable mark_satisfied_clauses_as_garbage : Internal → option Internal.
Variable garbage_collection : Internal → option Internal.

(** [Internal::reduce] up to the return of [unprotect_reasons].  [START],
    [STOP] and [report] only time and print. *)
Definition reduce_epoch (s : Internal) : option Internal :=
  let s :=
    set_stats (Stats.set_reductions (Stats.reductions (stats s) + 1)
                 (stats s)) s in
  s ← protect_reasons s;
  s ← mark_satisfied_clauses_as_garbage s;
  s ← mark_useless_redundant_clauses_as_garbage sort s;
  s ← garbage_collection s;
  unprotect_reasons s.

(** [Internal::reduce]: the epoch, then the update of the limits. *)
Definition reduce (s : Internal) : option Internal :=
  s ← reduce_epoch s;
  let s :=
    set_inc (Inc.set_reduce (Inc.reduce (inc s) + Inc.redinc (inc s))
               (inc s)) s in
  let s :=
    if bool_decide (1 < Inc.redinc (inc s))
    then set_inc (Inc.set_redinc (Inc.redinc (inc s) - 1) (inc s)) s
    else s in
  let s :=
    set_lim (Lim.set_reduce (Stats.conflicts (stats s) + Inc.reduce (inc s))
               (lim s)) s in
  let s := set_lim (Lim.set_analyzed (Stats.analyzed (stats s)) (lim s)) s in
  let s :=
    set_lim (Lim.set_conflicts_at_last_reduce (Stats.conflicts (stats s))
               (lim s)) s in
  Some s.

End reduce.

(** ** Further members of [clause.hpp] *)

(** [Clause::collect]: [!reason && garbage] *)
Definition collect (c : Clause.t) : bool :=
  negb (Clause.reason c) && Clause.garbage c.

(** [smaller_size]: [a->size < b->size] *)
Definition smaller_size (h : gmap Z Clause.t) (a b : Z) : option bool :=
  ca ← h !! a; cb ← h !! b;
  Some (bool_decide (Clause.size ca < Clause.size cb)).

(** The least value of a 32-bit [int]. *)
Definition INT_MIN : Z := - 2 ^ 31.

(** [abs] of the C library on [int]: undefined at [INT_MIN], whose
    absolute value is not an [int]. *)
Definition int_abs (a : Z) : option Z :=
  if bool_decide (a = INT_MIN) then None else Some (Z.abs a).

(** [lit_less_than]: [s < t || (s == t && a < b)] for [s = abs (a)],
    [t = abs (b)]. *)
Definition lit_less_than (a b : Z) : option bool :=
  s ← int_abs a; t ← int_abs b;
  Some (bool_decide (s < t) || (bool_decide (s = t) && bool_decide (a < b))).

(** ** Vocabulary of the properties *)

(** Every handle of the registry owns a clause. *)
Definition registry_ok (s : Internal) : Prop :=
  ∀ p, p ∈ clauses s → is_Some (heap s !! p).

(** The six conditions of the selection stage, for the limit [limit]. *)
Definition reduction_candidate (limit : Z) (c : Clause.t) : Prop :=
  Clause.redundant c = true ∧ Clause.blocked c = 0 ∧
  Clause.reason c = false ∧ Clause.garbage c = false ∧
  Clause.have_analyzed c = true ∧ Clause._analyzed c ≤ limit.

(** The clause at [p] is not garbage in [s] and is garbage in [s']. *)
Definition marked (s s' : Internal) (p : Z) : Prop :=
  ∃ c c', heap s !! p = Some c ∧ heap s' !! p = Some c' ∧
          Clause.garbage c = false ∧ Clause.garbage c' = true.

(** The heap after [mark_garbage] on each handle of [ps]. *)
Definition mark_all (ps : list Z) (h : gmap Z Clause.t) : gmap Z Clause.t :=
  foldl (λ h p, alter (Clause.set_garbage true) p h) h ps.

(** The running maximum of the field [f] over the clauses at [ps], from
    [init] on. *)
Definition kept_max (f : Clause.t → Z) (h : gmap Z Clause.t)
    (ps : list Z) (init : Z) : Z :=
  foldl (λ acc p, match h !! p with
                  | Some c => Z.max acc (f c)
                  | None => acc
                  end) init ps.

(** The sort key of the clause at [p]: its glue, when [opts.reduceglue]
    is set, and its time stamp.  A key stands before another when its glue
    is larger or, with equal glue, its time stamp is smaller. *)
Definition sort_key (s : Internal) (p : Z) : Z * Z :=
  (if Opts.reduceglue (opts s)
   then default 0 (Clause.glue <$> heap s !! p) else 0,
   default 0 (Clause._analyzed <$> heap s !! p)).

Definition key_before (k1 k2 : Z * Z) : Prop :=
  k2.1 < k1.1 ∨ (k1.1 = k2.1 ∧ k1.2 < k2.2).

(** The state [mark_useless_redundant_clauses_as_garbage] leaves when
    [std::sort] put the candidates of [s] in the order [sorted]. *)
Definition reduced_state (sorted : list Z) (s : Internal) : Internal :=
  let target := (length sorted / 2)%nat in
  let h := mark_all (take target sorted) (heap s) in
  mkInternal (opts s)
    (Stats.set_reduced (Stats.reduced (stats s) + Z.of_nat target) (stats s))
    (Lim.set_keptglue (kept_max Clause.glue h (drop target sorted) 0)
       (Lim.set_keptsize (kept_max Clause.size h (drop target sorted) 0)
          (lim s)))
    (inc s) (clauses s) h (trail s) (vtab s).

(** ** Sample data *)

(** An original binary clause [-3 ∨ 5]: neither [pos] nor [analyzed]. *)
Definition binary_original : Clause.t :=
  Clause.mk 0 0 false false false false false false 0 0 2 [-3; 5].

(** A learned clause of four literals with time stamp [ts] and glue [g]. *)
Definition learned (ts g : Z) : Clause.t :=
  Clause.mk ts 2 true true true false false false g 0 4 [1; -2; 4; -6].

(** A learned clause of six literals with [pos = 5] and [glue = 4]. *)
Definition six_literals : Clause.t :=
  Clause.mk 0 5 true true true false false false 4 0 6 [1; -2; 3; 4; -5; 6].

(** Ten learned clauses at the addresses [1064, 1128, ...], with the time
    stamps [10, 9, ..., 1] and glues between 2 and 4. *)
Definition ten_addresses : list Z :=
  (λ i, 1000 + 64 * Z.of_nat i) <$> seq 1 10.

Definition ten_clauses : gmap Z Clause.t :=
  list_to_map
    ((λ i, (1000 + 64 * Z.of_nat i,
            learned (11 - Z.of_nat i) (Z.of_nat i `mod` 3 + 2))) <$> seq 1 10).

Definition ten_state (by_glue : bool) : Internal :=
  mkInternal (Opts.mk true by_glue) (Stats.mk 5000 10 0 0 10)
    (Lim.mk 5000 7 0 0 0) (Inc.mk 300 5) ten_addresses ten_clauses [] ∅.

(** Two learned clauses with the same glue and the same time stamp. *)
Definition tied_state (by_glue : bool) : Internal :=
  mkInternal (Opts.mk true by_glue) (Stats.mk 5000 10 0 0 2)
    (Lim.mk 5000 7 0 0 0) (Inc.mk 300 5) [1064; 1128]
    (<[1064 := learned 5 3]> (<[1128 := learned 5 3]> ∅)) [] ∅.

(** A solver without clauses and with an empty trail, at 1000 conflicts. *)
Definition idle_state : Internal :=
  mkInternal (Opts.mk true true) (Stats.mk 1000 40 0 0 0)
    (Lim.mk 1000 0 0 0 0) (Inc.mk 300 5) [] ∅ [] ∅.

(** The ten learned clauses together with the original binary clause. *)
Definition mixed_state (by_glue : bool) : Internal :=
  mkInternal (Opts.mk true by_glue) (Stats.mk 5000 10 0 0 10)
    (Lim.mk 5000 7 0 0 0) (Inc.mk 300 5) (1000 :: ten_addresses)
    (<[1000 := binary_original]> ten_clauses) [] ∅.

(** The reason a trail literal contributes to [protect_reasons]: that of
    its variable when the variable is assigned above level 0. *)
Definition protected_reason (s : Internal) (lit : Z) : option Z :=
  v ← var s lit;
  if bool_decide (Var.level v = 0) then None else Var.reason v.

(** The reason clauses [protect_reasons] visits, in trail order. *)
Definition trail_reasons (s : Internal) : list Z :=
  omap (protected_reason s) (trail s).

(** Every trail literal has a variable record and every reason visited
    owns a clause. *)
Definition trail_ok (s : Internal) : Prop :=
  (∀ lit, lit ∈ trail s → is_Some (var s lit)) ∧
  (∀ r, r ∈ trail_reasons s → is_Some (heap s !! r)).

(** The heap after applying [f] to the clause at each handle of [ps]. *)
Definition alter_all (f : Clause.t → Clause.t) (ps : list Z)
    (h : gmap Z Clause.t) : gmap Z Clause.t :=
  foldl (λ h p, alter f p h) h ps.

(** A trail of three literals: variable 1 assigned at level 0 with a
    reason, variable 2 decided at level 1, variable 3 implied at level 1
    by the clause at 1256. *)
Definition trail_state : Internal :=
  mkInternal (Opts.mk true true) (Stats.mk 5000 10 0 0 10)
    (Lim.mk 5000 7 0 0 0) (Inc.mk 300 5) ten_addresses ten_clauses
    [1; -2; 3]
    (<[1 := Var.mk 0 (Some 1064)]>
       (<[2 := Var.mk 1 None]> (<[3 := Var.mk 1 (Some 1256)]> ∅))).

(** The same trail with variable 2 implied by the clause at 1256 too. *)
Definition shared_reason_state : Internal :=
  mkInternal (Opts.mk true true) (Stats.mk 5000 10 0 0 10)
    (Lim.mk 5000 7 0 0 0) (Inc.mk 300 5) ten_addresses ten_clauses
    [1; -2; 3]
    (<[1 := Var.mk 0 (Some 1064)]>
       (<[2 := Var.mk 1 (Some 1256)]> (<[3 := Var.mk 1 (Some 1256)]> ∅))).

(** * Properties *)

(** ** Straight insertion meets the contract of [std::sort] *)

Section insertion.
Context {A : Type} (cmp : A → A → option bool) (dom : list A).
Hypothesis Hswo : strict_weak_on cmp dom.

Lemma cmp_asym x y :
  x ∈ dom → y ∈ dom → cmp x y = Some true → cmp y x = Some false.
Proof.
  destruct Hswo as (Hdef & Hirr & Htr & _). intros Hx Hy Hxy.
  destruct (Hdef y x Hy Hx) as [[] Hyx]; [|done].
  pose proof (Htr x y x Hx Hy Hx Hxy Hyx) as Hxx.
  rewrite (Hirr x Hx) in Hxx. discriminate.
Qed.

Lemma insert_by_sorted x l :
  x ∈ dom → l ⊆ dom → sorted_by cmp l →
  ∃ r, insert_by cmp x l = Some r ∧ r ≡ₚ x :: l ∧ sorted_by cmp r.
Proof.
  intros Hx. induction l as [|y l IH]; intros Hl Hs.
  - exists [x]. repeat split; [done|]. repeat constructor.
  - assert (Hy : y ∈ dom) by (apply Hl; left).
    assert (Hl' : l ⊆ dom) by (intros z Hz; apply Hl; by right).
    apply StronglySorted_inv in Hs as [Hs Hhd].
    destruct Hswo as (Hdef & Hirr & Htr & _).
    simpl. destruct (Hdef x y Hx Hy) as [[] Hxy]; rewrite Hxy; simpl.
    + exists (x :: y :: l). repeat split; [done|].
      constructor; [constructor; assumption|].
      constructor; [by apply cmp_asym|].
      rewrite Forall_forall in Hhd |- *. intros z Hz.
      specialize (Hhd z Hz). unfold not_after in *.
      destruct (Hdef z x (Hl' z Hz) Hx) as [[] Hzx]; [|done].
      pose proof (Htr z x y (Hl' z Hz) Hx Hy Hzx Hxy) as Hzy. congruence.
    + destruct (IH Hl' Hs) as (r & -> & Hp & Hr). simpl.
      exists (y :: r). repeat split.
      * rewrite Hp. apply Permutation_swap.
      * constructor; [assumption|]. rewrite Hp. by constructor.
Qed.

Lemma insertion_sort_by_sorted l :
  l ⊆ dom →
  ∃ r, insertion_sort_by cmp l = Some r ∧ r ≡ₚ l ∧ sorted_by cmp r.
Proof.
  induction l as [|x l IH]; intros Hl.
  - exists []. repeat split; [done|]. constructor.
  - destruct IH as (s & Hs & Hp & Hsorted).
    { intros z Hz. apply Hl. by right. }
    destruct (insert_by_sorted x s) as (r & Hr & Hpr & Hsr); [| |done|].
    { apply Hl. left. }
    { intros z Hz. apply Hl. right. by rewrite <- Hp. }
    exists r. simpl. rewrite Hs. simpl. repeat split; [done| |done].
    by rewrite Hpr, Hp.
Qed.
End insertion.

Lemma insertion_sort_contract : std_sort_contract insertion_sort.
Proof.
  intros A cmp l Hswo. by apply (insertion_sort_by_sorted cmp l).
Qed.

Lemma reversed_insertion_sort_contract :
  std_sort_contract reversed_insertion_sort.
Proof.
  intros A cmp l Hswo. unfold reversed_insertion_sort.
  destruct (insertion_sort_by_sorted cmp l Hswo (reverse l))
    as (r & Hr & Hp & Hs).
  { intros z Hz. by apply elem_of_reverse. }
  exists r. repeat split; [done| |done]. by rewrite Hp, reverse_Permutation.
Qed.

(** ** The selection stage *)

Lemma selected_true s p :
  selected s p = Some true ↔
  ∃ c, heap s !! p = Some c ∧ reduction_candidate (Lim.analyzed (lim s)) c.
Proof.
  unfold selected, reduction_candidate, Clause.analyzed. split.
  - destruct (heap s !! p) as [c|]; [|done]. simpl.
    destruct (Clause.redundant c) eqn:?, (Clause.reason c) eqn:?,
      (Clause.garbage c) eqn:?, (Clause.have_analyzed c) eqn:?; simpl;
      repeat case_bool_decide; try done.
    intros _. exists c. repeat split; try done; lia.
  - intros (c & -> & Hr & Hb & Hre & Hg & Hh & Ha). simpl.
    rewrite Hr, Hre, Hg, Hh. simpl.
    repeat case_bool_decide; try done; lia.
Qed.

Lemma selected_is_Some s p : is_Some (heap s !! p) → is_Some (selected s p).
Proof.
  intros [c Hc]. unfold selected, Clause.analyzed. rewrite Hc. simpl.
  destruct (Clause.redundant c), (Clause.reason c), (Clause.garbage c),
    (Clause.have_analyzed c); simpl; repeat case_bool_decide; eauto.
Qed.

Lemma select_from_filter s cs stack :
  (∀ p, p ∈ cs → is_Some (heap s !! p)) →
  select_from s cs stack =
  Some (stack ++ filter (λ p, selected s p = Some true) cs).
Proof.
  revert stack. induction cs as [|p cs IH]; intros stack Hcs; simpl.
  - by rewrite app_nil_r.
  - destruct (selected_is_Some s p) as [b Hb]; [apply Hcs; left|].
    rewrite Hb. simpl. rewrite IH by (intros q Hq; apply Hcs; by right).
    rewrite filter_cons. destruct b; case_decide; try congruence.
    by rewrite <- app_assoc.
Qed.

Lemma candidates_filter s :
  registry_ok s →
  candidates s = Some (filter (λ p, selected s p = Some true) (clauses s)).
Proof. intros Hok. unfold candidates. by rewrite select_from_filter. Qed.

(** ** The two orders on candidates *)

Lemma analyzed_earlier_eval h a b ca cb :
  h !! a = Some ca → h !! b = Some cb →
  Clause.have_analyzed ca = true → Clause.have_analyzed cb = true →
  analyzed_earlier h a b =
  Some (bool_decide (Clause._analyzed ca < Clause._analyzed cb)).
Proof.
  intros Ha Hb Hha Hhb. unfold analyzed_earlier, Clause.analyzed.
  rewrite Ha, Hb. simpl. by rewrite Hha, Hhb.
Qed.

Lemma less_usefull_eval h a b ca cb :
  h !! a = Some ca → h !! b = Some cb →
  Clause.have_analyzed ca = true → Clause.have_analyzed cb = true →
  less_usefull h a b =
  Some (bool_decide (Clause.glue cb < Clause.glue ca ∨
                     (Clause.glue ca = Clause.glue cb ∧
                      Clause._analyzed ca < Clause._analyzed cb))).
Proof.
  intros Ha Hb Hha Hhb. unfold less_usefull.
  rewrite (analyzed_earlier_eval h a b ca cb) by done.
  rewrite Ha, Hb. simpl. repeat case_bool_decide; try done; lia.
Qed.

Lemma selected_have_analyzed s p :
  selected s p = Some true →
  ∃ c, heap s !! p = Some c ∧ Clause.have_analyzed c = true.
Proof.
  intros (c & Hc & H)%selected_true. exists c. split; [done|]. apply H.
Qed.

(** A fallible comparison that decides a strict weak order [R] of keys is
    a strict weak ordering in the sense of the contract. *)
Lemma strict_weak_on_keys {A K : Type} (cmp : A → A → option bool)
    (key : A → K) (R : K → K → Prop) `{!∀ a b, Decision (R a b)}
    (l : list A) :
  (∀ x y, x ∈ l → y ∈ l → cmp x y = Some (bool_decide (R (key x) (key y)))) →
  (∀ a, ¬ R a a) →
  (∀ a b c, R a b → R b c → R a c) →
  (∀ a b c, ¬ R a b → ¬ R b a → ¬ R b c → ¬ R c b → ¬ R a c ∧ ¬ R c a) →
  strict_weak_on cmp l.
Proof.
  intros Hcmp Hirr Htr Heq. split; [|split; [|split]].
  - intros x y Hx Hy. rewrite Hcmp by done. eauto.
  - intros x Hx. rewrite Hcmp by done. f_equal.
    apply bool_decide_eq_false, Hirr.
  - intros x y z Hx Hy Hz. rewrite !Hcmp by done.
    intros [= Hxy%bool_decide_eq_true] [= Hyz%bool_decide_eq_true].
    f_equal. apply bool_decide_eq_true. by apply Htr with (key y).
  - intros x y z Hx Hy Hz. rewrite !Hcmp by done.
    intros [= Hxy%bool_decide_eq_false] [= Hyx%bool_decide_eq_false]
           [= Hyz%bool_decide_eq_false] [= Hzy%bool_decide_eq_false].
    destruct (Heq _ _ _ Hxy Hyx Hyz Hzy).
    split; f_equal; by apply bool_decide_eq_false.
Qed.

Lemma analyzed_earlier_strict_weak s l :
  (∀ p, p ∈ l → selected s p = Some true) →
  strict_weak_on (analyzed_earlier (heap s)) l.
Proof.
  intros Hl.
  apply (strict_weak_on_keys _
           (λ p, default 0 (Clause._analyzed <$> heap s !! p)) Z.lt);
    [|lia..].
  intros x y (cx & Hx & ?)%Hl%selected_have_analyzed
             (cy & Hy & ?)%Hl%selected_have_analyzed.
  rewrite (analyzed_earlier_eval _ x y cx cy) by done.
  by rewrite Hx, Hy.
Qed.

Lemma less_usefull_strict_weak s l :
  (∀ p, p ∈ l → selected s p = Some true) →
  strict_weak_on (less_usefull (heap s)) l.
Proof.
  intros Hl.
  apply (strict_weak_on_keys _
           (λ p, (default 0 (Clause.glue <$> heap s !! p),
                  default 0 (Clause._analyzed <$> heap s !! p)))
           (λ k1 k2, k2.1 < k1.1 ∨ (k1.1 = k2.1 ∧ k1.2 < k2.2))).
  - intros x y (cx & Hx & ?)%Hl%selected_have_analyzed
               (cy & Hy & ?)%Hl%selected_have_analyzed.
    rewrite (less_usefull_eval _ x y cx cy) by done.
    by rewrite Hx, Hy.
  - intros [??]; simpl; lia.
  - intros [??] [??] [??]; simpl; lia.
  - intros [??] [??] [??]; simpl; lia.
Qed.

Lemma reduce_order_strict_weak s l :
  (∀ p, p ∈ l → selected s p = Some true) →
  strict_weak_on (reduce_order s) l.
Proof.
  intros Hl. unfold reduce_order. destruct (Opts.reduceglue (opts s)).
  - by apply less_usefull_strict_weak.
  - by apply analyzed_earlier_strict_weak.
Qed.

(** ** The discard stage *)

Lemma insert_as_alter (f : Clause.t → Clause.t) (h : gmap Z Clause.t) p c :
  h !! p = Some c → <[p := f c]> h = alter f p h.
Proof.
  intros Hc. apply map_eq. intros i.
  rewrite lookup_alter, lookup_insert.
  case_decide; subst; by rewrite ?Hc.
Qed.

Lemma mark_all_lookup ps h p :
  mark_all ps h !! p =
  if decide (p ∈ ps) then Clause.set_garbage true <$> h !! p else h !! p.
Proof.
  revert h. induction ps as [|q ps IH]; intros h.
  - case_decide; [set_solver|done].
  - unfold mark_all in *. cbn [foldl]. rewrite IH, lookup_alter.
    destruct (decide (p ∈ ps)) as [Hin|Hin], (decide (q = p)) as [->|Hne].
    + rewrite decide_True by left. by destruct (h !! p).
    + rewrite decide_True by (by right). done.
    + rewrite decide_True by left. done.
    + rewrite decide_False; [done|]. by intros [?|?]%elem_of_cons.
Qed.

Lemma mark_all_is_Some ps h p :
  is_Some (mark_all ps h !! p) ↔ is_Some (h !! p).
Proof.
  rewrite mark_all_lookup. case_decide; [|done]. by rewrite fmap_is_Some.
Qed.

Lemma mark_from_eval ps s :
  (∀ p, p ∈ ps → is_Some (heap s !! p)) →
  mark_from ps s =
  Some (set_stats
          (Stats.set_reduced
             (Stats.reduced (stats s) + Z.of_nat (length ps)) (stats s))
          (set_heap (mark_all ps (heap s)) s)).
Proof.
  revert s. induction ps as [|p ps IH]; intros s Hps.
  - simpl. destruct s as [? [] ? ? ? ? ? ?]. simpl.
    unfold set_stats, set_heap, Stats.set_reduced. simpl.
    do 3 f_equal. lia.
  - destruct (Hps p) as [c Hc]; [left|].
    simpl. unfold mark_garbage. rewrite Hc. simpl.
    rewrite (insert_as_alter _ _ _ _ Hc). rewrite IH.
    + unfold set_stats, set_heap, Stats.set_reduced. simpl.
      do 3 f_equal. lia.
    + intros q Hq. simpl. apply lookup_alter_is_Some, Hps. by right.
Qed.

(** ** The kept profile *)

Lemma kept_max_ge_init f h ps init : init ≤ kept_max f h ps init.
Proof.
  revert init. unfold kept_max.
  induction ps as [|p ps IH]; intros init; simpl; [lia|].
  etrans; [|apply IH]. destruct (h !! p); lia.
Qed.

Lemma kept_max_upper f h ps init p c :
  p ∈ ps → h !! p = Some c → f c ≤ kept_max f h ps init.
Proof.
  revert init. induction ps as [|q ps IH]; intros init Hp Hc.
  - set_solver.
  - apply elem_of_cons in Hp as [->|Hp].
    + unfold kept_max. simpl. rewrite Hc.
      etrans; [|apply kept_max_ge_init]. lia.
    + by apply IH.
Qed.

Lemma kept_max_attained f h ps init :
  kept_max f h ps init = init ∨
  ∃ p c, p ∈ ps ∧ h !! p = Some c ∧ f c = kept_max f h ps init.
Proof.
  revert init. induction ps as [|q ps IH]; intros init; [by left|].
  unfold kept_max in *. simpl.
  destruct (h !! q) as [c|] eqn:Hq.
  - destruct (IH (Z.max init (f c))) as [Heq|(p & c' & Hp & Hc & Heq)].
    + rewrite Heq. destruct (Z.max_spec init (f c)) as [[? ->]|[? ->]].
      * right. exists q, c. repeat split; [left|done].
      * by left.
    + right. exists p, c'. repeat split; [by right|done|done].
  - destruct (IH init) as [Heq|(p & c' & Hp & Hc & Heq)]; [by left|].
    right. exists p, c'. repeat split; [by right|done|done].
Qed.

Lemma scan_kept_from_eval ps s :
  (∀ p, p ∈ ps → is_Some (heap s !! p)) →
  scan_kept_from ps s =
  Some (set_lim
          (Lim.set_keptglue
             (kept_max Clause.glue (heap s) ps (Lim.keptglue (lim s)))
             (Lim.set_keptsize
                (kept_max Clause.size (heap s) ps (Lim.keptsize (lim s)))
                (lim s))) s).
Proof.
  revert s. induction ps as [|p ps IH]; intros s Hps.
  - by destruct s as [? ? [] ? ? ? ? ?].
  - destruct (Hps p) as [c Hc]; [left|].
    simpl. rewrite Hc. simpl.
    repeat case_bool_decide; simpl in *;
      (rewrite IH by (intros q Hq; simpl; apply Hps; by right));
      unfold kept_max; simpl; rewrite ?Hc;
      repeat match goal with
        | |- context [Z.max ?a ?b] =>
            first [rewrite (Z.max_l a b) by lia
                  |rewrite (Z.max_r a b) by lia]
        end; done.
Qed.

(** ** The whole policy *)

Lemma mark_useless_eval sort s :
  std_sort_contract sort → registry_ok s →
  ∃ cand sorted,
    candidates s = Some cand ∧
    cand = filter (λ p, selected s p = Some true) (clauses s) ∧
    sort Z (reduce_order s) cand = Some sorted ∧
    sorted ≡ₚ cand ∧ sorted_by (reduce_order s) sorted ∧
    mark_useless_redundant_clauses_as_garbage sort s =
    Some (reduced_state sorted s).
Proof.
  intros Hsort Hok.
  set (cand := filter (λ p, selected s p = Some true) (clauses s)).
  assert (Hcand : ∀ p, p ∈ cand → selected s p = Some true ∧ p ∈ clauses s).
  { intros p Hp. by apply list_elem_of_filter in Hp. }
  destruct (Hsort Z (reduce_order s) cand) as (sorted & Hs & Hp & Hsorted).
  { apply reduce_order_strict_weak. intros p Hp. by apply Hcand. }
  assert (Hin : ∀ p, p ∈ sorted → is_Some (heap s !! p)).
  { intros p Hin. apply Hok, Hcand. by rewrite <- Hp. }
  exists cand, sorted. repeat split; try done.
  { by apply candidates_filter. }
  unfold mark_useless_redundant_clauses_as_garbage.
  rewrite candidates_filter by done. fold cand. cbn -[Nat.div].
  rewrite Hs. cbn -[Nat.div].
  rewrite mark_from_eval.
  2: { intros p Hin'. by apply Hin, (subseteq_take (length sorted / 2)). }
  cbn -[Nat.div]. rewrite scan_kept_from_eval.
  2: { intros p Hin'. cbn -[Nat.div]. apply mark_all_is_Some, Hin.
       by apply (subseteq_drop (length sorted / 2)). }
  cbn -[Nat.div]. rewrite length_take_le.
  2: { apply Nat.Div0.div_le_upper_bound. lia. }
  done.
Qed.

Lemma registry_ok_Forall s :
  Forall (λ p, is_Some (heap s !! p)) (clauses s) → registry_ok s.
Proof. intros H p Hp. by eapply Forall_forall in H. Qed.

Lemma ten_state_registry_ok g : registry_ok (ten_state g).
Proof.
  apply registry_ok_Forall. apply (bool_decide_unpack _). by vm_compute.
Qed.

Lemma ten_state_live_clauses g p c :
  p ∈ clauses (ten_state g) → heap (ten_state g) !! p = Some c →
  2 ≤ Clause.size c ∧ 0 ≤ Clause.glue c.
Proof.
  intros Hp Hc.
  assert (H : Forall (λ p,
    from_option (λ c, bool_decide (2 ≤ Clause.size c ∧ 0 ≤ Clause.glue c))
      true (heap (ten_state g) !! p)) (clauses (ten_state g))).
  { apply (bool_decide_unpack _). by vm_compute. }
  eapply Forall_forall in H; [|done]. rewrite Hc in H.
  by apply bool_decide_unpack in H.
Qed.

(** ** The clause object *)

Lemma unsigned_wrap_small w z : 0 ≤ z < 2 ^ w → unsigned_wrap w z = z.
Proof. intros. unfold unsigned_wrap. by apply Z.mod_small. Qed.

Lemma signed_wrap_small w z :
  0 < w → - 2 ^ (w - 1) ≤ z < 2 ^ (w - 1) → signed_wrap w z = z.
Proof.
  intros Hw Hz. unfold signed_wrap.
  assert (2 ^ w = 2 * 2 ^ (w - 1)) as ->.
  { rewrite <- Z.pow_succ_r by lia. f_equal. lia. }
  rewrite Z.mod_small; lia.
Qed.

Lemma offset_eq L c :
  layout_ok L →
  Clause.offset L c =
  (if Clause.have_pos c then 0 else sizeof_pos L) +
  (if Clause.have_analyzed c then 0 else sizeof_analyzed L).
Proof.
  intros (Hp & Ha & Hi & Hle & Hlt & Hw). unfold Clause.offset.
  destruct (Clause.have_pos c), (Clause.have_analyzed c); cbv zeta; simpl;
    rewrite ?(unsigned_wrap_small _ (0 + sizeof_pos L)) by lia;
    rewrite ?(unsigned_wrap_small _ (_ + sizeof_analyzed L)) by lia; lia.
Qed.

(** C1, as the code has it: the allocation of the clause at [this] starts
    at [this + offset] (the absent prefix fields are skipped, not
    prepended), is [bytes] long with [bytes] the size of the header plus
    [size - 2] further literals minus [offset], and therefore ends where
    the literals end; [offset] is the sum of the sizes of the absent
    prefix fields. *)
Theorem clause_allocation_span (L : Layout) (this : Z) (c : Clause.t) :
  layout_ok L → 2 ≤ Clause.size c →
  sizeof_Clause L + (Clause.size c - 2) * sizeof_int L < 2 ^ size_t_bits L →
  Clause.offset L c =
    (if Clause.have_pos c then 0 else sizeof_pos L) +
    (if Clause.have_analyzed c then 0 else sizeof_analyzed L) ∧
  Clause.bytes L c =
    sizeof_Clause L + (Clause.size c - 2) * sizeof_int L
    - Clause.offset L c ∧
  Clause.start L this c = this + Clause.offset L c ∧
  Clause.start L this c + Clause.bytes L c =
    this + sizeof_Clause L + (Clause.size c - 2) * sizeof_int L.
Proof.
  intros HL Hsize Hfit. pose proof (offset_eq L c HL) as Hoff.
  destruct HL as (Hp & Ha & Hi & Hle & Hlt & Hw).
  assert (Hb : Clause.bytes L c =
    sizeof_Clause L + (Clause.size c - 2) * sizeof_int L
    - Clause.offset L c).
  { unfold Clause.bytes. cbv zeta.
    assert (0 ≤ (Clause.size c - 2) * sizeof_int L) by nia.
    rewrite (unsigned_wrap_small _ (Clause.size c - 2)) by nia.
    rewrite (unsigned_wrap_small _ (_ * _)) by lia.
    rewrite (unsigned_wrap_small _ (_ + _)) by lia.
    rewrite unsigned_wrap_small; [done|].
    rewrite Hoff.
    destruct (Clause.have_pos c), (Clause.have_analyzed c); lia. }
  unfold Clause.start. repeat split; [done|done|lia|lia].
Qed.

Lemma clause_allocation_span_witness :
  layout_ok LP64 ∧ 2 ≤ Clause.size binary_original ∧
  Clause.offset LP64 binary_original = 12 ∧
  Clause.bytes LP64 binary_original = 28 ∧
  Clause.start LP64 1000 binary_original = 1012 ∧
  Clause.start LP64 1000 binary_original + Clause.bytes LP64 binary_original
  = 1040.
Proof.
  assert (HL : layout_ok LP64) by (vm_compute; intuition congruence).
  assert (Hs : 2 ≤ Clause.size binary_original) by (vm_compute; congruence).
  split; [exact HL|]. split; [exact Hs|].
  apply (clause_allocation_span LP64 1000 binary_original HL Hs).
  reflexivity.
Defined.

(** C1, as stated, fails: the allocation of an original binary clause at
    address 1000 starts at 1012, twelve bytes above the clause pointer and
    not twelve bytes below it. *)
Lemma allocation_start_not_below :
  Clause.offset LP64 binary_original = 12 ∧
  Clause.start LP64 1000 binary_original = 1012 ∧
  Clause.start LP64 1000 binary_original
  ≠ 1000 - Clause.offset LP64 binary_original.
Proof. by vm_compute. Qed.

(** C8: for a clause of size at least 2 whose glue fits its bit-field,
    [update_after_shrinking] succeeds, resets [pos] to 2 when the field is
    present and not below [size] (and leaves it otherwise), and clamps
    [glue] to [size] when it exceeds it (and leaves it otherwise); the
    clause with [size=6], [pos=5], [glue=4] shrunk to [size=3] ends with
    [pos=2] and [glue=3]. *)
Theorem update_after_shrinking_fixup (c : Clause.t) :
  2 ≤ Clause.size c → Clause.glue c ≤ MAX_GLUE →
  ∃ c', Clause.update_after_shrinking c = Some c' ∧
    (Clause.have_pos c = true → Clause.size c ≤ Clause._pos c →
       Clause._pos c' = 2) ∧
    (¬ (Clause.have_pos c = true ∧ Clause.size c ≤ Clause._pos c) →
       Clause._pos c' = Clause._pos c) ∧
    (Clause.size c < Clause.glue c → Clause.glue c' = Clause.size c) ∧
    (Clause.glue c ≤ Clause.size c → Clause.glue c' = Clause.glue c) ∧
    ∃ d, Clause.update_after_shrinking (Clause.set_size 3 six_literals)
         = Some d ∧
         Clause.pos d = Some 2 ∧ Clause.glue d = 3 ∧ Clause.size d = 3.
Proof.
  intros Hsize Hglue.
  assert (Hw : Clause.size c < Clause.glue c →
               signed_wrap LD_MAX_GLUE (Clause.size c) = Clause.size c).
  { intros Hlt. apply signed_wrap_small; [done|].
    change (2 ^ (LD_MAX_GLUE - 1)) with (MAX_GLUE + 1). lia. }
  assert (Hex : ∃ d,
    Clause.update_after_shrinking (Clause.set_size 3 six_literals) = Some d ∧
    Clause.pos d = Some 2 ∧ Clause.glue d = 3 ∧ Clause.size d = 3)
    by (by eexists).
  revert Hex. generalize (Clause.set_size 3 six_literals). intros e Hex.
  unfold Clause.update_after_shrinking at 1.
  rewrite bool_decide_eq_true_2 by done. eexists. split; [reflexivity|].
  destruct (Clause.have_pos c) eqn:Hp,
    (bool_decide (Clause.size c ≤ Clause._pos c)) eqn:Hle,
    (bool_decide (Clause.size c < Clause.glue c)) eqn:Hlt; simpl;
    rewrite Hlt; simpl;
    try apply bool_decide_eq_true in Hle;
    try apply bool_decide_eq_false in Hle;
    try apply bool_decide_eq_true in Hlt;
    try apply bool_decide_eq_false in Hlt;
    split_and!; try done; try (intros; lia); try (intros; by apply Hw);
    intros Hn; exfalso; apply Hn; by split.
Qed.

Lemma update_after_shrinking_fixup_witness :
  ∃ c', Clause.update_after_shrinking (Clause.set_size 3 six_literals)
        = Some c' ∧ Clause._pos c' = 2 ∧ Clause.glue c' = 3.
Proof.
  destruct (update_after_shrinking_fixup (Clause.set_size 3 six_literals))
    as (c' & Hc' & Hpos & _ & Hglue & _).
  - vm_compute. congruence.
  - vm_compute. congruence.
  - exists c'. split; [exact Hc'|]. split.
    + apply Hpos; [reflexivity|]. vm_compute. congruence.
    + rewrite Hglue; [reflexivity|]. reflexivity.
Defined.

(** C10: for a clause of size at least 2, [update_after_shrinking]
    succeeds and changes nothing but [_pos] and [glue]: the size, the
    literals, the blocking literal, both presence bits, the time stamp and
    the four flags are those of the clause before the call. *)
Theorem update_after_shrinking_frame (c : Clause.t) :
  2 ≤ Clause.size c →
  ∃ c', Clause.update_after_shrinking c = Some c' ∧
    Clause.size c' = Clause.size c ∧
    Clause.literals c' = Clause.literals c ∧
    Clause.blocked c' = Clause.blocked c ∧
    Clause.have_analyzed c' = Clause.have_analyzed c ∧
    Clause.have_pos c' = Clause.have_pos c ∧
    Clause._analyzed c' = Clause._analyzed c ∧
    Clause.redundant c' = Clause.redundant c ∧
    Clause.garbage c' = Clause.garbage c ∧
    Clause.reason c' = Clause.reason c ∧
    Clause.moved c' = Clause.moved c.
Proof.
  intros Hsize. unfold Clause.update_after_shrinking.
  rewrite bool_decide_eq_true_2 by done. eexists. split; [done|].
  destruct (Clause.have_pos c && bool_decide (Clause.size c ≤ Clause._pos c));
    simpl; case_bool_decide; done.
Qed.

Lemma update_after_shrinking_frame_witness :
  ∃ c', Clause.update_after_shrinking (Clause.set_size 3 six_literals)
        = Some c' ∧
        Clause.size c' = 3 ∧
        Clause.literals c' = [1; -2; 3; 4; -5; 6] ∧
        Clause.redundant c' = true.
Proof.
  destruct (update_after_shrinking_frame (Clause.set_size 3 six_literals))
    as (c' & Hc' & Hs & Hl & _ & _ & _ & _ & Hr & _).
  - vm_compute. congruence.
  - exists c'. split; [exact Hc'|]. split; [exact Hs|].
    split; [exact Hl|exact Hr].
Defined.

Lemma mixed_state_registry_ok g : registry_ok (mixed_state g).
Proof.
  apply registry_ok_Forall. apply (bool_decide_unpack _). by vm_compute.
Qed.

(** C9: each accessor returns the stored field when its presence bit is
    set and fails its assertion when the bit is clear; the reduction
    policy, which calls [analyzed ()] in its selection loop and in its
    comparisons, never fails (the calls are guarded by [have.analyzed]),
    and [update_after_shrinking] does not depend on [_pos] when [have.pos]
    is clear. *)
Theorem accessors_assert_presence (sort : sorter) (s : Internal)
    (c : Clause.t) :
  std_sort_contract sort → registry_ok s →
  (Clause.have_analyzed c = true →
     Clause.analyzed c = Some (Clause._analyzed c)) ∧
  (Clause.have_analyzed c = false → Clause.analyzed c = None) ∧
  (Clause.have_pos c = true → Clause.pos c = Some (Clause._pos c)) ∧
  (Clause.have_pos c = false → Clause.pos c = None) ∧
  is_Some (mark_useless_redundant_clauses_as_garbage sort s) ∧
  (Clause.have_pos c = false → ∀ v,
     Clause.update_after_shrinking (Clause.set_pos v c)
     = Clause.set_pos v <$> Clause.update_after_shrinking c).
Proof.
  intros Hsort Hok. unfold Clause.analyzed, Clause.pos. split_and!.
  - by intros ->.
  - by intros ->.
  - by intros ->.
  - by intros ->.
  - destruct (mark_useless_eval sort s Hsort Hok)
      as (cand & sorted & _ & _ & _ & _ & _ & ->). eauto.
  - intros Hp v. unfold Clause.update_after_shrinking. simpl. rewrite Hp.
    simpl. repeat case_bool_decide; done.
Qed.

Lemma accessors_assert_presence_witness :
  std_sort_contract insertion_sort ∧ registry_ok (mixed_state true) ∧
  Clause.analyzed binary_original = None ∧
  Clause.pos (learned 3 2) = Some 2 ∧
  is_Some (mark_useless_redundant_clauses_as_garbage insertion_sort
             (mixed_state true)).
Proof.
  split; [exact insertion_sort_contract|].
  split; [exact (mixed_state_registry_ok true)|].
  destruct (accessors_assert_presence insertion_sort (mixed_state true)
              binary_original insertion_sort_contract
              (mixed_state_registry_ok true))
    as (_ & Ha & _ & _ & Hm & _).
  split; [apply Ha; reflexivity|].
  split; [|exact Hm].
  apply (accessors_assert_presence insertion_sort (mixed_state true)
           (learned 3 2) insertion_sort_contract
           (mixed_state_registry_ok true)).
  reflexivity.
Defined.

(** ** The reduce scheduler *)

(** C2, as the code has it: when the epoch has run and left the state
    [s1], [reduce] returns; [inc.reduce] has grown by [inc.redinc],
    [inc.redinc] has dropped by one if it exceeded 1, [lim.reduce] is the
    conflict count plus the grown [inc.reduce], and [lim.analyzed] and
    [lim.conflicts_at_last_reduce] are the current [stats.analyzed] and
    conflict count. *)
Theorem reduce_updates_limits (sort : sorter)
    (mark_satisfied_clauses_as_garbage garbage_collection
       : Internal → option Internal) (s s1 : Internal) :
  reduce_epoch sort mark_satisfied_clauses_as_garbage garbage_collection s
  = Some s1 →
  ∃ s', reduce sort mark_satisfied_clauses_as_garbage garbage_collection s
        = Some s' ∧
    Inc.reduce (inc s') = Inc.reduce (inc s1) + Inc.redinc (inc s1) ∧
    Inc.redinc (inc s') =
      (if bool_decide (1 < Inc.redinc (inc s1))
       then Inc.redinc (inc s1) - 1 else Inc.redinc (inc s1)) ∧
    Lim.reduce (lim s') =
      Stats.conflicts (stats s1)
      + (Inc.reduce (inc s1) + Inc.redinc (inc s1)) ∧
    Lim.analyzed (lim s') = Stats.analyzed (stats s1) ∧
    Lim.conflicts_at_last_reduce (lim s') = Stats.conflicts (stats s1) ∧
    Lim.keptsize (lim s') = Lim.keptsize (lim s1) ∧
    Lim.keptglue (lim s') = Lim.keptglue (lim s1) ∧
    stats s' = stats s1 ∧ heap s' = heap s1 ∧ clauses s' = clauses s1.
Proof.
  intros Hepoch. unfold reduce. rewrite Hepoch. simpl.
  eexists. split; [reflexivity|].
  case_bool_decide; simpl; split_and!; done.
Qed.

Lemma reduce_updates_limits_witness :
  ∃ s', reduce insertion_sort Some Some (ten_state true) = Some s' ∧
    Inc.reduce (inc s') = 305 ∧ Inc.redinc (inc s') = 4 ∧
    Lim.reduce (lim s') = 5305 ∧ Lim.analyzed (lim s') = 10.
Proof.
  destruct (reduce_updates_limits insertion_sort Some Some (ten_state true)
              (default (ten_state true)
                 (reduce_epoch insertion_sort Some Some (ten_state true))))
    as (s' & Hs' & Hi & Hd & Hl & Ha & _).
  - vm_compute. reflexivity.
  - exists s'. split; [exact Hs'|].
    split; [rewrite Hi; reflexivity|].
    split; [rewrite Hd; reflexivity|].
    split; [rewrite Hl; reflexivity|rewrite Ha; reflexivity].
Defined.

(** C2, as stated, fails: with 1000 conflicts, [inc.reduce = 300] and
    [inc.redinc = 5] (and no clause to mark or to collect), [reduce] sets
    [lim.reduce] to 1305, the conflict count plus the increment after its
    growth, where the increment before the update gives 1300. *)
Lemma reduce_limit_uses_grown_increment :
  ∃ s', reduce insertion_sort Some Some idle_state = Some s' ∧
    Lim.reduce (lim s') = 1305 ∧
    Stats.conflicts (stats s') + Inc.reduce (inc idle_state) = 1300 ∧
    Lim.reduce (lim s')
    ≠ Stats.conflicts (stats s') + Inc.reduce (inc idle_state).
Proof. eexists. split; [by vm_compute|]. by vm_compute. Qed.

(** ** The reduction policy *)

Lemma marked_reduced_state s sorted p :
  (∀ q, q ∈ sorted → selected s q = Some true) →
  marked s (reduced_state sorted s) p ↔ p ∈ take (length sorted / 2) sorted.
Proof.
  intros Hsel. unfold marked, reduced_state. cbn -[Nat.div].
  rewrite mark_all_lookup. split.
  - intros (c & c' & Hc & Hc' & Hg & Hg'). case_decide; [done|]. congruence.
  - intros Hp. rewrite decide_True by done.
    destruct (proj1 (selected_true s p)) as (c & Hc & Hcand).
    { by apply Hsel, (subseteq_take (length sorted / 2)). }
    exists c, (Clause.set_garbage true c). rewrite Hc.
    split_and!; [done|done| |done]. apply Hcand.
Qed.

Lemma unselected_unchanged s sorted p c :
  (∀ q, q ∈ sorted → selected s q = Some true) →
  heap s !! p = Some c →
  ¬ reduction_candidate (Lim.analyzed (lim s)) c →
  heap (reduced_state sorted s) !! p = Some c.
Proof.
  intros Hsel Hc Hn. unfold reduced_state. cbn -[Nat.div].
  rewrite mark_all_lookup, decide_False; [done|].
  intros Hp%(subseteq_take (length sorted / 2))%Hsel%selected_true.
  destruct Hp as (c' & Hc' & Hcand). congruence.
Qed.

(** C3: the selection loop never fails on a registry whose handles own
    clauses; a clause of the registry is pushed on the stack if and only
    if it is redundant, has no blocking literal, is neither a reason nor
    garbage, has the [analyzed] field and a time stamp of at most
    [lim.analyzed]; and the policy leaves every clause that fails one of
    the six conditions exactly as it was. *)
Theorem selection_by_six_conditions (sort : sorter) (s : Internal) :
  std_sort_contract sort → registry_ok s →
  ∃ cand s',
    candidates s = Some cand ∧
    mark_useless_redundant_clauses_as_garbage sort s = Some s' ∧
    (∀ p, p ∈ cand ↔
       p ∈ clauses s ∧
       ∃ c, heap s !! p = Some c ∧
            reduction_candidate (Lim.analyzed (lim s)) c) ∧
    (∀ p c, heap s !! p = Some c →
       ¬ reduction_candidate (Lim.analyzed (lim s)) c →
       heap s' !! p = Some c ∧ ¬ marked s s' p).
Proof.
  intros Hsort Hok.
  destruct (mark_useless_eval sort s Hsort Hok)
    as (cand & sorted & Hcand & Hfilter & _ & Hperm & _ & Hrun).
  assert (Hsel : ∀ q, q ∈ sorted → selected s q = Some true).
  { intros q Hq. rewrite Hperm, Hfilter in Hq.
    by apply list_elem_of_filter in Hq as [? _]. }
  exists cand, (reduced_state sorted s). split_and!; [done|done| |].
  - intros p. rewrite Hfilter, list_elem_of_filter, selected_true. tauto.
  - intros p c Hc Hn. split; [by apply unselected_unchanged|].
    rewrite marked_reduced_state by done.
    intros Hp%(subseteq_take (length sorted / 2))%Hsel%selected_true.
    destruct Hp as (c' & Hc' & ?). congruence.
Qed.

Lemma selection_by_six_conditions_witness :
  std_sort_contract insertion_sort ∧ registry_ok (mixed_state false) ∧
  ∃ cand s',
    candidates (mixed_state false) = Some cand ∧
    mark_useless_redundant_clauses_as_garbage insertion_sort
      (mixed_state false) = Some s' ∧
    (1256 ∈ cand) ∧ heap s' !! 1000 = Some binary_original.
Proof.
  split; [exact insertion_sort_contract|].
  split; [exact (mixed_state_registry_ok false)|].
  destruct (selection_by_six_conditions insertion_sort (mixed_state false)
              insertion_sort_contract (mixed_state_registry_ok false))
    as (cand & s' & Hcand & Hrun & Hiff & Hframe).
  exists cand, s'. split; [exact Hcand|]. split; [exact Hrun|]. split.
  - apply Hiff. split; [apply (bool_decide_unpack _); by vm_compute|].
    exists (learned 7 3). split; [reflexivity|].
    vm_compute. intuition congruence.
  - apply (Hframe 1000 binary_original); [reflexivity|].
    intros (Hr & _). discriminate Hr.
Defined.

(** C4: on a registry without repeated handles, one call marks exactly
    the first [n / 2] handles of the sorted stack, where [n] is the number
    of candidates: these are [n / 2] distinct clauses, no other clause
    turns garbage, [stats.reduced] grows by [n / 2], and nothing is marked
    when [n = 0]. *)
Theorem half_of_candidates_marked (sort : sorter) (s : Internal) :
  std_sort_contract sort → registry_ok s → NoDup (clauses s) →
  ∃ cand sorted s',
    candidates s = Some cand ∧
    sort Z (reduce_order s) cand = Some sorted ∧ sorted ≡ₚ cand ∧
    mark_useless_redundant_clauses_as_garbage sort s = Some s' ∧
    let n := length cand in
    let first_half := take (n / 2) sorted in
    (∀ p, marked s s' p ↔ p ∈ first_half) ∧
    NoDup first_half ∧ length first_half = (n / 2)%nat ∧
    Stats.reduced (stats s') =
      Stats.reduced (stats s) + Z.of_nat (n / 2) ∧
    (n = 0%nat → heap s' = heap s).
Proof.
  intros Hsort Hok Hnd.
  destruct (mark_useless_eval sort s Hsort Hok)
    as (cand & sorted & Hcand & Hfilter & Hsorted & Hperm & _ & Hrun).
  assert (Hsel : ∀ q, q ∈ sorted → selected s q = Some true).
  { intros q Hq. rewrite Hperm, Hfilter in Hq.
    by apply list_elem_of_filter in Hq as [? _]. }
  assert (Hlen : length sorted = length cand) by by rewrite Hperm.
  exists cand, sorted, (reduced_state sorted s).
  split_and!; try done. cbv zeta. rewrite <- Hlen. split_and!.
  - intros p. by apply marked_reduced_state.
  - apply (sublist_NoDup _ sorted); [|apply sublist_take].
    rewrite Hperm, Hfilter. by apply NoDup_filter.
  - apply length_take_le, Nat.Div0.div_le_upper_bound. lia.
  - done.
  - intros Hn. unfold reduced_state. cbn -[Nat.div]. by rewrite Hn.
Qed.

Lemma half_of_candidates_marked_witness :
  std_sort_contract insertion_sort ∧ registry_ok (ten_state false) ∧
  NoDup (clauses (ten_state false)) ∧
  ∃ cand sorted s',
    candidates (ten_state false) = Some cand ∧
    insertion_sort Z (reduce_order (ten_state false)) cand = Some sorted ∧
    mark_useless_redundant_clauses_as_garbage insertion_sort
      (ten_state false) = Some s' ∧
    (∀ p, marked (ten_state false) s' p ↔
          p ∈ take (length cand / 2) sorted) ∧
    length (take (length cand / 2) sorted) = (length cand / 2)%nat ∧
    Stats.reduced (stats s') =
      Stats.reduced (stats (ten_state false))
      + Z.of_nat (length cand / 2).
Proof.
  assert (Hnd : NoDup (clauses (ten_state false))).
  { apply (bool_decide_unpack _). by vm_compute. }
  split; [exact insertion_sort_contract|].
  split; [exact (ten_state_registry_ok false)|].
  split; [exact Hnd|].
  destruct (half_of_candidates_marked insertion_sort (ten_state false)
              insertion_sort_contract (ten_state_registry_ok false) Hnd)
    as (cand & sorted & s' & Hcand & Hsorted & _ & Hrun & Hmarked & _ & Hlen
        & Hred & _).
  exists cand, sorted, s'.
  split; [exact Hcand|]. split; [exact Hsorted|]. split; [exact Hrun|].
  split; [exact Hmarked|]. split; [exact Hlen|exact Hred].
Defined.

(** Ten learned clauses with the time stamps 1 to 10 and the limit 7,
    sorted by time stamp: the seven oldest are candidates and the three
    oldest of them are marked; sorted by glue, the three candidates of
    glue 4 and 3 with the oldest stamps are. *)
Example reduce_selection_scenario :
  (s' ← mark_useless_redundant_clauses_as_garbage insertion_sort
          (ten_state false);
   Some (filter (λ p, Clause.garbage <$> heap s' !! p = Some true)
           (clauses s'),
         Stats.reduced (stats s'), Lim.keptsize (lim s'),
         Lim.keptglue (lim s')))
  = Some ([1512; 1576; 1640], 3, 4, 4) ∧
  (s' ← mark_useless_redundant_clauses_as_garbage insertion_sort
          (ten_state true);
   Some (filter (λ p, Clause.garbage <$> heap s' !! p = Some true)
           (clauses s'),
         Stats.reduced (stats s'), Lim.keptsize (lim s'),
         Lim.keptglue (lim s')))
  = Some ([1320; 1512; 1640], 3, 4, 3).
Proof. by vm_compute. Qed.

(** C5: with [opts.reduceglue] set, no marked clause has a smaller glue
    than a candidate the call leaves unmarked. *)
Theorem reduce_by_glue_marks_highest_glue (sort : sorter) (s : Internal) :
  std_sort_contract sort → registry_ok s →
  Opts.reduceglue (opts s) = true →
  ∃ cand s',
    candidates s = Some cand ∧
    mark_useless_redundant_clauses_as_garbage sort s = Some s' ∧
    ∀ m u cm cu,
      heap s !! m = Some cm → heap s !! u = Some cu →
      u ∈ cand → marked s s' m → ¬ marked s s' u →
      Clause.glue cu ≤ Clause.glue cm.
Proof.
  intros Hsort Hok Hglue.
  destruct (mark_useless_eval sort s Hsort Hok)
    as (cand & sorted & Hcand & Hfilter & _ & Hperm & Hsorted & Hrun).
  assert (Hsel : ∀ q, q ∈ sorted → selected s q = Some true).
  { intros q Hq. rewrite Hperm, Hfilter in Hq.
    by apply list_elem_of_filter in Hq as [? _]. }
  exists cand, (reduced_state sorted s). split_and!; [done|done|].
  intros m u cm cu Hcm Hcu Hu Hm Hnu.
  rewrite marked_reduced_state in Hm, Hnu by done.
  set (k := (length sorted / 2)%nat) in *.
  assert (Hdrop : u ∈ drop k sorted).
  { rewrite <- Hperm, <- (take_drop k sorted) in Hu.
    by apply elem_of_app in Hu as [?|?]. }
  unfold sorted_by in Hsorted. rewrite <- (take_drop k sorted) in Hsorted.
  pose proof (StronglySorted_app_1_elem_of _ _ _ _ _ Hsorted Hm Hdrop)
    as Hord.
  unfold not_after, reduce_order in Hord. rewrite Hglue in Hord.
  destruct (selected_have_analyzed s m) as (cm' & ? & ?).
  { by apply Hsel, (subseteq_take k). }
  destruct (selected_have_analyzed s u) as (cu' & ? & ?).
  { by apply Hsel, (subseteq_drop k). }
  simplify_eq.
  rewrite (less_usefull_eval _ u m cu cm) in Hord by done.
  injection Hord as Hord%bool_decide_eq_false. lia.
Qed.

Lemma reduce_by_glue_marks_highest_glue_witness :
  std_sort_contract insertion_sort ∧ registry_ok (ten_state true) ∧
  Opts.reduceglue (opts (ten_state true)) = true ∧
  ∃ cand s',
    candidates (ten_state true) = Some cand ∧
    mark_useless_redundant_clauses_as_garbage insertion_sort
      (ten_state true) = Some s' ∧
    ∀ m u cm cu,
      heap (ten_state true) !! m = Some cm →
      heap (ten_state true) !! u = Some cu →
      u ∈ cand →
      marked (ten_state true) s' m → ¬ marked (ten_state true) s' u →
      Clause.glue cu ≤ Clause.glue cm.
Proof.
  split; [exact insertion_sort_contract|].
  split; [exact (ten_state_registry_ok true)|].
  split; [reflexivity|].
  exact (reduce_by_glue_marks_highest_glue insertion_sort (ten_state true)
           insertion_sort_contract (ten_state_registry_ok true) eq_refl).
Defined.

(** C7: after the call, [lim.keptsize] and [lim.keptglue] bound the size
    and the glue of every clause in the surviving half of the sorted
    stack; when that half is not empty (and sizes are at least 2 and glues
    not negative, as for every live clause) each bound is attained by a
    surviving clause; when it is empty both are 0. *)
Theorem kept_profile_is_maximum (sort : sorter) (s : Internal) :
  std_sort_contract sort → registry_ok s →
  (∀ p c, p ∈ clauses s → heap s !! p = Some c →
     2 ≤ Clause.size c ∧ 0 ≤ Clause.glue c) →
  ∃ cand sorted s',
    candidates s = Some cand ∧
    sort Z (reduce_order s) cand = Some sorted ∧ sorted ≡ₚ cand ∧
    mark_useless_redundant_clauses_as_garbage sort s = Some s' ∧
    let kept := drop (length cand / 2) sorted in
    (∀ p c, p ∈ kept → heap s' !! p = Some c →
       Clause.size c ≤ Lim.keptsize (lim s') ∧
       Clause.glue c ≤ Lim.keptglue (lim s')) ∧
    (kept ≠ [] →
       (∃ p c, p ∈ kept ∧ heap s' !! p = Some c ∧
               Clause.size c = Lim.keptsize (lim s')) ∧
       (∃ p c, p ∈ kept ∧ heap s' !! p = Some c ∧
               Clause.glue c = Lim.keptglue (lim s'))) ∧
    (kept = [] → Lim.keptsize (lim s') = 0 ∧ Lim.keptglue (lim s') = 0).
Proof.
  intros Hsort Hok Hinv.
  destruct (mark_useless_eval sort s Hsort Hok)
    as (cand & sorted & Hcand & Hfilter & Hsorted & Hperm & _ & Hrun).
  assert (Hlen : length sorted = length cand) by by rewrite Hperm.
  exists cand, sorted, (reduced_state sorted s).
  split_and!; try done. cbv zeta. rewrite <- Hlen.
  set (k := (length sorted / 2)%nat).
  set (h := mark_all (take k sorted) (heap s)).
  assert (Hsize : Lim.keptsize (lim (reduced_state sorted s))
                  = kept_max Clause.size h (drop k sorted) 0) by done.
  assert (Hglue : Lim.keptglue (lim (reduced_state sorted s))
                  = kept_max Clause.glue h (drop k sorted) 0) by done.
  assert (Hheap : heap (reduced_state sorted s) = h) by done.
  rewrite Hsize, Hglue, Hheap. clear Hsize Hglue Hheap.
  assert (Hkept : ∀ p, p ∈ drop k sorted →
    ∃ c, h !! p = Some c ∧ 2 ≤ Clause.size c ∧ 0 ≤ Clause.glue c).
  { intros p Hp%(subseteq_drop k). rewrite Hperm, Hfilter in Hp.
    apply list_elem_of_filter in Hp as [_ Hp].
    destruct (Hok p Hp) as [c Hc]. destruct (Hinv p c Hp Hc).
    unfold h. rewrite mark_all_lookup, Hc.
    case_decide; eexists; (split; [done|]); done. }
  split_and!.
  - intros p c Hp Hc. split; by eapply kept_max_upper.
  - intros Hne. destruct (drop k sorted) as [|p0 kept] eqn:Hd; [done|].
    destruct (Hkept p0) as (c0 & Hc0 & Hs0 & Hg0); [left|].
    pose proof (kept_max_upper Clause.size h (p0 :: kept) 0 p0 c0) as Hus.
    pose proof (kept_max_upper Clause.glue h (p0 :: kept) 0 p0 c0) as Hug.
    split.
    + destruct (kept_max_attained Clause.size h (p0 :: kept) 0)
        as [Heq|(p & c & ? & ? & ?)]; [|by eauto].
      rewrite Heq in Hus. specialize (Hus ltac:(left) Hc0). lia.
    + destruct (kept_max_attained Clause.glue h (p0 :: kept) 0)
        as [Heq|(p & c & ? & ? & ?)]; [|by eauto].
      exists p0, c0. split_and!; [left|done|].
      rewrite Heq in Hug |- *. specialize (Hug ltac:(left) Hc0). lia.
  - by intros ->.
Qed.

Lemma kept_profile_is_maximum_witness :
  std_sort_contract insertion_sort ∧ registry_ok (ten_state true) ∧
  ∃ cand sorted s',
    candidates (ten_state true) = Some cand ∧
    insertion_sort Z (reduce_order (ten_state true)) cand = Some sorted ∧
    mark_useless_redundant_clauses_as_garbage insertion_sort
      (ten_state true) = Some s' ∧
    (∀ p c, p ∈ drop (length cand / 2) sorted → heap s' !! p = Some c →
       Clause.size c ≤ Lim.keptsize (lim s') ∧
       Clause.glue c ≤ Lim.keptglue (lim s')).
Proof.
  split; [exact insertion_sort_contract|].
  split; [exact (ten_state_registry_ok true)|].
  destruct (kept_profile_is_maximum insertion_sort (ten_state true)
              insertion_sort_contract (ten_state_registry_ok true)
              (ten_state_live_clauses true))
    as (cand & sorted & s' & Hcand & Hsorted & _ & Hrun & Hupper & _).
  exists cand, sorted, s'.
  split; [exact Hcand|]. split; [exact Hsorted|]. split; [exact Hrun|].
  exact Hupper.
Defined.

(** ** The order of the sort stage *)

Lemma select_from_selected s cs stack r :
  select_from s cs stack = Some r →
  ∀ p, p ∈ r → p ∈ stack ∨ selected s p = Some true.
Proof.
  revert stack. induction cs as [|q cs IH]; intros stack Hr p Hp; simpl in Hr.
  - left. congruence.
  - destruct (selected s q) as [b|] eqn:Hq; [|done]. simpl in Hr.
    destruct (IH _ Hr p Hp) as [Hin|?]; [|by right].
    destruct b; [|by left].
    apply elem_of_app in Hin as [?|Hs]; [by left|].
    apply list_elem_of_singleton in Hs as ->. by right.
Qed.

Lemma candidates_selected s cand :
  candidates s = Some cand → ∀ p, p ∈ cand → selected s p = Some true.
Proof.
  intros Hc p Hp.
  destruct (select_from_selected _ _ _ _ Hc p Hp) as [Hin|?]; [|done].
  by apply elem_of_nil in Hin.
Qed.

Lemma reduce_order_eval s a b :
  selected s a = Some true → selected s b = Some true →
  reduce_order s a b =
  Some (bool_decide (key_before (sort_key s a) (sort_key s b))).
Proof.
  intros (ca & Ha & ?)%selected_have_analyzed
         (cb & Hb & ?)%selected_have_analyzed.
  unfold reduce_order, sort_key, key_before.
  destruct (Opts.reduceglue (opts s)).
  - rewrite (less_usefull_eval _ a b ca cb) by done. by rewrite Ha, Hb.
  - rewrite (analyzed_earlier_eval _ a b ca cb) by done. rewrite Ha, Hb.
    simpl. f_equal. apply bool_decide_ext. lia.
Qed.

Lemma key_before_irrefl k : ¬ key_before k k.
Proof. unfold key_before. lia. Qed.

Lemma key_before_total k1 k2 :
  ¬ key_before k1 k2 → ¬ key_before k2 k1 → k1 = k2.
Proof.
  destruct k1 as [g1 t1], k2 as [g2 t2]. unfold key_before. simpl.
  intros. f_equal; lia.
Qed.

Lemma sorted_by_keys s l :
  (∀ p, p ∈ l → selected s p = Some true) →
  sorted_by (reduce_order s) l →
  StronglySorted (λ k1 k2, ¬ key_before k2 k1) (sort_key s <$> l).
Proof.
  intros Hsel Hs. induction Hs as [|p l Hs IH Hhd]; [constructor|].
  rewrite fmap_cons. constructor.
  - apply IH. intros q Hq. apply Hsel. by right.
  - rewrite Forall_fmap. rewrite Forall_forall in Hhd |- *.
    intros q Hq. specialize (Hhd q Hq). unfold not_after in Hhd.
    rewrite reduce_order_eval in Hhd
      by (apply Hsel; first [by right|left]).
    simpl. by injection Hhd as Hhd%bool_decide_eq_false.
Qed.

(** C6, as the code has it: on the candidates, the functor of the sort
    stage never fails and is a strict weak ordering; it compares the keys
    (glue and time stamp under [opts.reduceglue], the time stamp
    otherwise) and nothing else, so that two candidates are ordered, in
    exactly one direction, if and only if their keys differ; the sequence
    of keys of the sorted stack is therefore the same for every sorting
    that meets the contract of [std::sort]. *)
Theorem reduce_order_strict_weak_order (s : Internal) (cand : list Z) :
  candidates s = Some cand →
  strict_weak_on (reduce_order s) cand ∧
  (∀ a b, a ∈ cand → b ∈ cand →
     reduce_order s a b =
       Some (bool_decide (key_before (sort_key s a) (sort_key s b))) ∧
     ¬ (reduce_order s a b = Some true ∧ reduce_order s b a = Some true) ∧
     (reduce_order s a b = Some true ∨ reduce_order s b a = Some true ↔
      sort_key s a ≠ sort_key s b)) ∧
  (∀ l1 l2, l1 ≡ₚ cand → l2 ≡ₚ cand →
     sorted_by (reduce_order s) l1 → sorted_by (reduce_order s) l2 →
     sort_key s <$> l1 = sort_key s <$> l2).
Proof.
  intros Hcand. pose proof (candidates_selected s cand Hcand) as Hsel.
  split_and!.
  - by apply reduce_order_strict_weak.
  - intros a b Ha%Hsel Hb%Hsel.
    rewrite (reduce_order_eval s a b), (reduce_order_eval s b a) by done.
    split_and!; [done| |].
    + intros [[= H1%bool_decide_eq_true] [= H2%bool_decide_eq_true]].
      unfold key_before in *. lia.
    + split.
      * intros [[= H%bool_decide_eq_true]|[= H%bool_decide_eq_true]] Heq;
          rewrite Heq in H; by apply key_before_irrefl in H.
      * intros Hne.
        destruct (decide (key_before (sort_key s a) (sort_key s b)));
          [left; f_equal; by apply bool_decide_eq_true|].
        destruct (decide (key_before (sort_key s b) (sort_key s a)));
          [right; f_equal; by apply bool_decide_eq_true|].
        destruct Hne. by apply key_before_total.
  - intros l1 l2 H1 H2 Hs1 Hs2.
    apply (StronglySorted_unique_strong (λ k1 k2, ¬ key_before k2 k1)).
    + intros k1 k2 _ _ ? ?. by apply key_before_total.
    + apply sorted_by_keys; [|done]. intros p Hp. apply Hsel. by rewrite <- H1.
    + apply sorted_by_keys; [|done]. intros p Hp. apply Hsel. by rewrite <- H2.
    + by rewrite H1, H2.
Qed.

Lemma reduce_order_strict_weak_order_witness :
  candidates (tied_state true) = Some [1064; 1128] ∧
  strict_weak_on (reduce_order (tied_state true)) [1064; 1128] ∧
  reduce_order (tied_state true) 1064 1128
  = Some (bool_decide (key_before (sort_key (tied_state true) 1064)
                                    (sort_key (tied_state true) 1128))).
Proof.
  assert (Hc : candidates (tied_state true) = Some [1064; 1128])
    by (vm_compute; reflexivity).
  split; [exact Hc|].
  destruct (reduce_order_strict_weak_order (tied_state true) [1064; 1128] Hc)
    as (Hswo & Hkeys & _).
  split; [exact Hswo|].
  apply (Hkeys 1064 1128); apply (bool_decide_unpack _); vm_compute;
    exact I.
Defined.

(** C6, as stated, fails: two distinct candidates with the same glue and
    the same time stamp are ordered in neither direction by either
    functor, no pointer comparison breaks the tie, and two sortings that
    both meet the contract of [std::sort] mark different clauses. *)
Lemma tied_candidates_are_unordered :
  candidates (tied_state true) = Some [1064; 1128] ∧ 1064 ≠ 1128 ∧
  less_usefull (heap (tied_state true)) 1064 1128 = Some false ∧
  less_usefull (heap (tied_state true)) 1128 1064 = Some false ∧
  analyzed_earlier (heap (tied_state false)) 1064 1128 = Some false ∧
  analyzed_earlier (heap (tied_state false)) 1128 1064 = Some false ∧
  std_sort_contract insertion_sort ∧
  std_sort_contract reversed_insertion_sort ∧
  (s' ← mark_useless_redundant_clauses_as_garbage insertion_sort
          (tied_state true);
   Some (filter (λ p, Clause.garbage <$> heap s' !! p = Some true)
           (clauses s'))) = Some [1128] ∧
  (s' ← mark_useless_redundant_clauses_as_garbage reversed_insertion_sort
          (tied_state true);
   Some (filter (λ p, Clause.garbage <$> heap s' !! p = Some true)
           (clauses s'))) = Some [1064].
Proof.
  split_and!; try (by vm_compute).
  - exact insertion_sort_contract.
  - exact reversed_insertion_sort_contract.
Qed.

(** * Further properties *)

(** ** The order of literals *)

Lemma lit_less_than_eval a b :
  a ≠ INT_MIN → b ≠ INT_MIN →
  lit_less_than a b =
  Some (bool_decide (Z.abs a < Z.abs b ∨ (Z.abs a = Z.abs b ∧ a < b))).
Proof.
  intros Ha Hb. unfold lit_less_than, int_abs.
  rewrite (bool_decide_eq_false_2 (a = INT_MIN)),
    (bool_decide_eq_false_2 (b = INT_MIN)) by done.
  simpl. f_equal.
  repeat case_bool_decide; simpl; try done; lia.
Qed.

(** X1: on literals other than [INT_MIN], [lit_less_than] never fails and
    is a strict total order: irreflexive, transitive, and any two
    different literals are ordered in exactly one direction. *)
Theorem lit_less_than_strict_total (a b c : Z) :
  a ≠ INT_MIN → b ≠ INT_MIN → c ≠ INT_MIN →
  lit_less_than a a = Some false ∧
  (lit_less_than a b = Some true → lit_less_than b c = Some true →
   lit_less_than a c = Some true) ∧
  (a ≠ b →
   (lit_less_than a b = Some true ∧ lit_less_than b a = Some false) ∨
   (lit_less_than a b = Some false ∧ lit_less_than b a = Some true)).
Proof.
  intros Ha Hb Hc. rewrite !lit_less_than_eval by done. split_and!.
  - f_equal. apply bool_decide_eq_false. lia.
  - intros [= H1%bool_decide_eq_true] [= H2%bool_decide_eq_true].
    f_equal. apply bool_decide_eq_true. lia.
  - intros Hne.
    destruct (decide (Z.abs a < Z.abs b ∨ (Z.abs a = Z.abs b ∧ a < b)))
      as [H|H]; [left|right]; split; f_equal;
      (apply bool_decide_eq_true || apply bool_decide_eq_false); lia.
Qed.

Lemma lit_less_than_strict_total_witness :
  lit_less_than (-3) (-3) = Some false ∧
  (lit_less_than (-3) 3 = Some true → lit_less_than 3 (-4) = Some true →
   lit_less_than (-3) (-4) = Some true) ∧
  (-3 ≠ 3 →
   (lit_less_than (-3) 3 = Some true ∧ lit_less_than 3 (-3) = Some false) ∨
   (lit_less_than (-3) 3 = Some false ∧ lit_less_than 3 (-3) = Some true)).
Proof.
  apply (lit_less_than_strict_total (-3) 3 (-4)); vm_compute; congruence.
Defined.

(** X2: in a range sorted by [lit_less_than], the literals over one
    variable are contiguous: between two literals of the same variable
    there are only literals of that variable. *)
Theorem lit_less_than_groups_variables (l1 mid l2 : list Z) (a b : Z) :
  Forall (λ x, x ≠ INT_MIN) (l1 ++ a :: mid ++ b :: l2) →
  sorted_by lit_less_than (l1 ++ a :: mid ++ b :: l2) →
  Z.abs a = Z.abs b →
  ∀ c, c ∈ mid → Z.abs c = Z.abs a.
Proof.
  intros Hrange Hsorted Hab c Hc.
  rewrite Forall_forall in Hrange.
  assert (Ha : a ≠ INT_MIN).
  { apply Hrange, elem_of_app. right. left. }
  assert (Hb : b ≠ INT_MIN).
  { apply Hrange, elem_of_app. right. right. apply elem_of_app. right. left. }
  assert (Hcr : c ≠ INT_MIN).
  { apply Hrange, elem_of_app. right. right. apply elem_of_app. by left. }
  unfold sorted_by in Hsorted.
  apply StronglySorted_app_1_r in Hsorted.
  apply StronglySorted_inv in Hsorted as [Hrest Hhd].
  assert (Hac : not_after lit_less_than a c).
  { rewrite Forall_forall in Hhd. apply Hhd, elem_of_app. by left. }
  assert (Hcb : not_after lit_less_than c b).
  { apply (StronglySorted_app_1_elem_of _ mid (b :: l2)); [done|done|left]. }
  unfold not_after in *. rewrite lit_less_than_eval in Hac, Hcb by done.
  injection Hac as Hac%bool_decide_eq_false.
  injection Hcb as Hcb%bool_decide_eq_false. lia.
Qed.

Lemma lit_less_than_groups_variables_witness :
  sorted_by lit_less_than ([1] ++ -2 :: [-2; 2] ++ 2 :: [4]) ∧
  ∀ c, c ∈ [-2; 2] → Z.abs c = Z.abs (-2).
Proof.
  assert (Hs : sorted_by lit_less_than ([1] ++ -2 :: [-2; 2] ++ 2 :: [4])).
  { repeat constructor. }
  split; [exact Hs|].
  apply (lit_less_than_groups_variables [1] [-2; 2] [4] (-2) 2);
    [|exact Hs|reflexivity].
  repeat constructor; vm_compute; congruence.
Defined.

(** ** Sorting by size *)

(** X3: [smaller_size] reads no optional field: any sorting that meets
    the contract of [std::sort] succeeds with it on every list of handles
    that own clauses, and leaves the sizes in ascending order. *)
Theorem sort_by_smaller_size (sort : sorter) (h : gmap Z Clause.t)
    (l : list Z) :
  std_sort_contract sort →
  (∀ p, p ∈ l → is_Some (h !! p)) →
  ∃ l', sort Z (smaller_size h) l = Some l' ∧ l' ≡ₚ l ∧
    ∀ i j p q cp cq, (i < j)%nat → l' !! i = Some p → l' !! j = Some q →
      h !! p = Some cp → h !! q = Some cq →
      Clause.size cp ≤ Clause.size cq.
Proof.
  intros Hsort Hl.
  assert (Heval : ∀ x y, x ∈ l → y ∈ l →
    smaller_size h x y =
    Some (bool_decide (default 0 (Clause.size <$> h !! x)
                       < default 0 (Clause.size <$> h !! y)))).
  { intros x y [cx Hx]%Hl [cy Hy]%Hl. unfold smaller_size.
    by rewrite Hx, Hy. }
  destruct (Hsort Z (smaller_size h) l) as (l' & Hl' & Hperm & Hsorted).
  { apply (strict_weak_on_keys _
             (λ p, default 0 (Clause.size <$> h !! p)) Z.lt);
      [done|lia..]. }
  exists l'. split_and!; [done|done|].
  intros i j p q cp cq Hij Hi Hj Hp Hq.
  rewrite <- (take_drop_middle l' j q Hj) in Hsorted.
  assert (Hin : p ∈ take j l').
  { apply list_elem_of_lookup. exists i.
    by rewrite lookup_take_lt. }
  pose proof (StronglySorted_app_1_elem_of _ _ _ p q Hsorted Hin
                ltac:(left)) as Hord.
  unfold not_after in Hord. rewrite Heval in Hord.
  - rewrite Hp, Hq in Hord. simpl in Hord.
    injection Hord as Hord%bool_decide_eq_false. lia.
  - rewrite <- Hperm. by eapply list_elem_of_lookup_2.
  - rewrite <- Hperm. by eapply list_elem_of_lookup_2.
Qed.

Lemma sort_by_smaller_size_witness :
  std_sort_contract insertion_sort ∧
  ∃ l', insertion_sort Z (smaller_size (heap (mixed_state true)))
          [1064; 1000; 1128] = Some l' ∧
        l' ≡ₚ [1064; 1000; 1128].
Proof.
  split; [exact insertion_sort_contract|].
  destruct (sort_by_smaller_size insertion_sort (heap (mixed_state true))
              [1064; 1000; 1128] insertion_sort_contract)
    as (l' & Hl' & Hperm & _).
  - apply (proj1 (Forall_forall _ _)). apply (bool_decide_unpack _).
    by vm_compute.
  - exists l'. split; [exact Hl'|exact Hperm].
Defined.

(** ** The fix-up after shrinking *)

Lemma update_after_shrinking_eval c :
  2 ≤ Clause.size c → Clause.glue c ≤ MAX_GLUE →
  Clause.update_after_shrinking c =
  Some (Clause.set_glue (Z.min (Clause.glue c) (Clause.size c))
          (Clause.set_pos
             (if Clause.have_pos c && bool_decide (Clause.size c ≤ Clause._pos c)
              then 2 else Clause._pos c) c)).
Proof.
  intros Hsize Hglue. unfold Clause.update_after_shrinking.
  rewrite bool_decide_eq_true_2 by done. f_equal.
  destruct c as [an po ha hp re ga rs mo gl bl sz li]. simpl in *.
  destruct (hp && bool_decide (sz ≤ po)); simpl;
    case_bool_decide; unfold Clause.set_glue, Clause.set_pos; simpl;
    f_equal; try lia.
  all: rewrite signed_wrap_small; [lia|done|].
  all: change (2 ^ (LD_MAX_GLUE - 1)) with (MAX_GLUE + 1); lia.
Qed.

(** X4: [update_after_shrinking] restores the invariants of a shrunken
    clause: afterwards the glue lies between 0 and the smaller of [size]
    and [MAX_GLUE], and a present [pos] is below [size] or is 2. *)
Theorem update_after_shrinking_restores_invariants (c : Clause.t) :
  2 ≤ Clause.size c → 0 ≤ Clause.glue c ≤ MAX_GLUE →
  ∃ c', Clause.update_after_shrinking c = Some c' ∧
    0 ≤ Clause.glue c' ≤ Z.min (Clause.size c') MAX_GLUE ∧
    (Clause.have_pos c' = true →
       Clause._pos c' < Clause.size c' ∨ Clause._pos c' = 2).
Proof.
  intros Hsize Hglue. rewrite update_after_shrinking_eval by lia.
  eexists. split; [done|]. simpl. split; [lia|].
  intros ->. simpl. case_bool_decide; lia.
Qed.

Lemma update_after_shrinking_restores_invariants_witness :
  ∃ c', Clause.update_after_shrinking (Clause.set_size 3 six_literals)
        = Some c' ∧
    0 ≤ Clause.glue c' ≤ Z.min (Clause.size c') MAX_GLUE ∧
    (Clause.have_pos c' = true →
       Clause._pos c' < Clause.size c' ∨ Clause._pos c' = 2).
Proof.
  apply (update_after_shrinking_restores_invariants
           (Clause.set_size 3 six_literals)); vm_compute;
    intuition congruence.
Defined.

(** X5: [update_after_shrinking] is idempotent: a second call on its
    result succeeds and changes nothing. *)
Theorem update_after_shrinking_idempotent (c : Clause.t) :
  2 ≤ Clause.size c → Clause.glue c ≤ MAX_GLUE →
  ∃ c', Clause.update_after_shrinking c = Some c' ∧
        Clause.update_after_shrinking c' = Some c'.
Proof.
  intros Hsize Hglue. rewrite update_after_shrinking_eval by lia.
  eexists. split; [done|].
  rewrite update_after_shrinking_eval by (simpl; lia).
  destruct c as [an po ha hp re ga rs mo gl bl sz li]. simpl in *.
  unfold Clause.set_glue, Clause.set_pos. simpl. do 2 f_equal; [|lia].
  destruct hp; simpl; repeat case_bool_decide; lia.
Qed.

Lemma update_after_shrinking_idempotent_witness :
  ∃ c', Clause.update_after_shrinking (Clause.set_size 2 six_literals)
        = Some c' ∧
        Clause.update_after_shrinking c' = Some c'.
Proof.
  apply (update_after_shrinking_idempotent (Clause.set_size 2 six_literals));
    vm_compute; congruence.
Defined.

(** ** The reduce scheduler, continued *)

(** X6: when the epoch has run and left increments of at least 1, the
    limit [reduce] sets lies above the conflict count, so that [reducing]
    is false right after it; the increment [inc.reduce] has grown and
    [inc.redinc] is still at least 1. *)
Theorem reducing_false_after_reduce (sort : sorter)
    (mark_satisfied_clauses_as_garbage garbage_collection
       : Internal → option Internal) (s s1 : Internal) :
  reduce_epoch sort mark_satisfied_clauses_as_garbage garbage_collection s
  = Some s1 →
  1 ≤ Inc.reduce (inc s1) → 1 ≤ Inc.redinc (inc s1) →
  ∃ s', reduce sort mark_satisfied_clauses_as_garbage garbage_collection s
        = Some s' ∧
    reducing s' = false ∧
    Stats.conflicts (stats s') < Lim.reduce (lim s') ∧
    Inc.reduce (inc s1) < Inc.reduce (inc s') ∧
    1 ≤ Inc.redinc (inc s') ≤ Inc.redinc (inc s1).
Proof.
  intros Hepoch Hinc Hred. unfold reduce. rewrite Hepoch. simpl.
  eexists. split; [reflexivity|]. unfold reducing.
  case_bool_decide; simpl; destruct (Opts.reduce (opts s1)); simpl;
    split_and!; try done; try lia; apply bool_decide_eq_false; lia.
Qed.

Lemma reducing_false_after_reduce_witness :
  reducing idle_state = true ∧
  ∃ s', reduce insertion_sort Some Some idle_state = Some s' ∧
        reducing s' = false.
Proof.
  split; [reflexivity|].
  destruct (reducing_false_after_reduce insertion_sort Some Some idle_state
              (default idle_state
                 (reduce_epoch insertion_sort Some Some idle_state)))
    as (s' & Hs' & Hr & _).
  - vm_compute. reflexivity.
  - vm_compute. congruence.
  - vm_compute. congruence.
  - exists s'. split; [exact Hs'|exact Hr].
Defined.

(** ** The reduction policy, continued *)

Lemma sorted_selected s cand sorted :
  cand = filter (λ p, selected s p = Some true) (clauses s) →
  sorted ≡ₚ cand →
  ∀ q, q ∈ sorted → selected s q = Some true.
Proof.
  intros -> Hperm q Hq. rewrite Hperm in Hq.
  by apply list_elem_of_filter in Hq as [? _].
Qed.



(** X8: the policy discards the oldest first: without [opts.reduceglue]
    no marked clause has a later time stamp than a candidate left
    unmarked, and with it the same holds between a marked clause and an
    unmarked candidate of equal glue. *)
Theorem marked_clauses_are_oldest (sort : sorter) (s : Internal) :
  std_sort_contract sort → registry_ok s →
  ∃ cand s',
    candidates s = Some cand ∧
    mark_useless_redundant_clauses_as_garbage sort s = Some s' ∧
    ∀ m u cm cu,
      heap s !! m = Some cm → heap s !! u = Some cu →
      u ∈ cand → marked s s' m → ¬ marked s s' u →
      (Opts.reduceglue (opts s) = false ∨ Clause.glue cu = Clause.glue cm) →
      Clause._analyzed cm ≤ Clause._analyzed cu.
Proof.
  intros Hsort Hok.
  destruct (mark_useless_eval sort s Hsort Hok)
    as (cand & sorted & Hcand & Hfilter & _ & Hperm & Hsorted & Hrun).
  pose proof (sorted_selected s cand sorted Hfilter Hperm) as Hsel.
  exists cand, (reduced_state sorted s). split_and!; [done|done|].
  intros m u cm cu Hcm Hcu Hu Hm Hnu Hmode.
  rewrite marked_reduced_state in Hm, Hnu by done.
  set (k := (length sorted / 2)%nat) in *.
  assert (Hdrop : u ∈ drop k sorted).
  { rewrite <- Hperm, <- (take_drop k sorted) in Hu.
    by apply elem_of_app in Hu as [?|?]. }
  unfold sorted_by in Hsorted. rewrite <- (take_drop k sorted) in Hsorted.
  pose proof (StronglySorted_app_1_elem_of _ _ _ _ _ Hsorted Hm Hdrop)
    as Hord.
  unfold not_after in Hord.
  rewrite reduce_order_eval in Hord.
  2: { by apply Hsel, (subseteq_drop k). }
  2: { by apply Hsel, (subseteq_take k). }
  injection Hord as Hord%bool_decide_eq_false.
  unfold key_before, sort_key in Hord. rewrite Hcm, Hcu in Hord.
  simpl in Hord. destruct (Opts.reduceglue (opts s));
    destruct Hmode as [?|?]; simpl in Hord; try done; lia.
Qed.

Lemma marked_clauses_are_oldest_witness :
  std_sort_contract insertion_sort ∧ registry_ok (ten_state false) ∧
  ∃ cand s',
    candidates (ten_state false) = Some cand ∧
    mark_useless_redundant_clauses_as_garbage insertion_sort
      (ten_state false) = Some s' ∧
    ∀ m u cm cu,
      heap (ten_state false) !! m = Some cm →
      heap (ten_state false) !! u = Some cu →
      u ∈ cand →
      marked (ten_state false) s' m → ¬ marked (ten_state false) s' u →
      (Opts.reduceglue (opts (ten_state false)) = false ∨
       Clause.glue cu = Clause.glue cm) →
      Clause._analyzed cm ≤ Clause._analyzed cu.
Proof.
  split; [exact insertion_sort_contract|].
  split; [exact (ten_state_registry_ok false)|].
  exact (marked_clauses_are_oldest insertion_sort (ten_state false)
           insertion_sort_contract (ten_state_registry_ok false)).
Defined.

(** X9: every clause the policy marks is ready to be collected afterwards
    ([collect] holds), while a clause whose [reason] flag is set is left as
    it was and is not collectable. *)
Theorem marked_clauses_are_collectable (sort : sorter) (s : Internal) :
  std_sort_contract sort → registry_ok s →
  ∃ s', mark_useless_redundant_clauses_as_garbage sort s = Some s' ∧
    (∀ p, marked s s' p → ∃ c', heap s' !! p = Some c' ∧ collect c' = true) ∧
    (∀ p c, heap s !! p = Some c → Clause.reason c = true →
            heap s' !! p = Some c ∧ collect c = false).
Proof.
  intros Hsort Hok.
  destruct (mark_useless_eval sort s Hsort Hok)
    as (cand & sorted & _ & Hfilter & _ & Hperm & _ & Hrun).
  pose proof (sorted_selected s cand sorted Hfilter Hperm) as Hsel.
  exists (reduced_state sorted s). split_and!; [done| |].
  - intros p Hp. rewrite marked_reduced_state in Hp by done.
    unfold reduced_state. cbn -[Nat.div].
    rewrite mark_all_lookup, decide_True by done.
    apply (subseteq_take (length sorted / 2)), Hsel, selected_true in Hp
      as (c & Hc & _ & _ & Hreason & _).
    rewrite Hc. eexists. split; [done|].
    unfold collect. simpl. by rewrite Hreason.
  - intros p c Hc Hreason. split.
    + apply unselected_unchanged; [done|done|].
      intros (_ & _ & ? & _). congruence.
    + unfold collect. by rewrite Hreason.
Qed.

Lemma marked_clauses_are_collectable_witness :
  std_sort_contract insertion_sort ∧ registry_ok (ten_state true) ∧
  ∃ s', mark_useless_redundant_clauses_as_garbage insertion_sort
          (ten_state true) = Some s' ∧
    (∀ p, marked (ten_state true) s' p →
          ∃ c', heap s' !! p = Some c' ∧ collect c' = true).
Proof.
  split; [exact insertion_sort_contract|].
  split; [exact (ten_state_registry_ok true)|].
  destruct (marked_clauses_are_collectable insertion_sort (ten_state true)
              insertion_sort_contract (ten_state_registry_ok true))
    as (s' & Hrun & Hmarked & _).
  exists s'. split; [exact Hrun|exact Hmarked].
Defined.

Lemma selected_after_marking s sorted p :
  (∀ q, q ∈ sorted → selected s q = Some true) →
  selected (reduced_state sorted s) p = Some true ↔
  (p ∉ take (length sorted / 2) sorted) ∧ selected s p = Some true.
Proof.
  intros Hsel. rewrite !selected_true.
  unfold reduced_state. cbn -[Nat.div]. rewrite mark_all_lookup.
  case_decide as Hp; split.
  - intros (c' & Hc' & _ & _ & _ & Hg & _).
    destruct (heap s !! p) as [c|]; [|done].
    injection Hc' as <-. discriminate Hg.
  - by intros [? _].
  - intros ?. by split.
  - by intros [_ ?].
Qed.

(** X10: a call directly after another selects exactly the candidates the
    first call left unmarked, in registry order. *)
Theorem survivors_are_next_candidates (sort : sorter) (s : Internal) :
  std_sort_contract sort → registry_ok s →
  ∃ cand sorted s',
    candidates s = Some cand ∧
    sort Z (reduce_order s) cand = Some sorted ∧
    mark_useless_redundant_clauses_as_garbage sort s = Some s' ∧
    registry_ok s' ∧
    candidates s' =
    Some (filter (λ p, p ∉ take (length cand / 2) sorted) cand).
Proof.
  intros Hsort Hok.
  destruct (mark_useless_eval sort s Hsort Hok)
    as (cand & sorted & Hcand & Hfilter & Hsorted & Hperm & _ & Hrun).
  pose proof (sorted_selected s cand sorted Hfilter Hperm) as Hsel.
  assert (Hlen : length sorted = length cand) by (by rewrite Hperm).
  assert (Hok' : registry_ok (reduced_state sorted s)).
  { intros p Hp. unfold reduced_state. cbn -[Nat.div].
    by apply mark_all_is_Some, Hok. }
  exists cand, sorted, (reduced_state sorted s).
  split_and!; [done|done|done|done|].
  rewrite candidates_filter by done. f_equal.
  rewrite <- Hlen, Hfilter, list_filter_filter.
  apply list_filter_iff. intros p. by apply selected_after_marking.
Qed.

Lemma survivors_are_next_candidates_witness :
  std_sort_contract insertion_sort ∧ registry_ok (ten_state true) ∧
  ∃ cand sorted s',
    candidates (ten_state true) = Some cand ∧
    insertion_sort Z (reduce_order (ten_state true)) cand = Some sorted ∧
    mark_useless_redundant_clauses_as_garbage insertion_sort
      (ten_state true) = Some s' ∧
    registry_ok s' ∧
    candidates s' =
    Some (filter (λ p, p ∉ take (length cand / 2) sorted) cand).
Proof.
  split; [exact insertion_sort_contract|].
  split; [exact (ten_state_registry_ok true)|].
  exact (survivors_are_next_candidates insertion_sort (ten_state true)
           insertion_sort_contract (ten_state_registry_ok true)).
Defined.





(** ** Reason protection *)

Lemma alter_all_lookup (f : Clause.t → Clause.t) ps h p :
  (∀ c, f (f c) = f c) →
  alter_all f ps h !! p =
  if decide (p ∈ ps) then f <$> h !! p else h !! p.
Proof.
  intros Hf. revert h. induction ps as [|q ps IH]; intros h.
  - rewrite decide_False; [done|]. apply not_elem_of_nil.
  - unfold alter_all in *. cbn [foldl]. rewrite IH, lookup_alter.
    destruct (decide (p ∈ ps)) as [Hin|Hin], (decide (q = p)) as [->|Hne].
    + rewrite decide_True by left. destruct (h !! p); simpl; by rewrite ?Hf.
    + rewrite decide_True by (by right). done.
    + rewrite decide_True by left. done.
    + rewrite decide_False; [done|]. by intros [?|?]%elem_of_cons.
Qed.

Lemma protected_reason_set_heap h s :
  protected_reason (set_heap h s) = protected_reason s.
Proof. reflexivity. Qed.

Lemma protect_reasons_from_eval tr s :
  (∀ lit, lit ∈ tr → is_Some (var s lit)) →
  (∀ r, r ∈ omap (protected_reason s) tr → is_Some (heap s !! r)) →
  protect_reasons_from tr s =
  Some (set_heap
          (alter_all (Clause.set_reason true) (omap (protected_reason s) tr)
             (heap s)) s).
Proof.
  revert s. induction tr as [|lit tr IH]; intros s Hvar Hreason.
  - by destruct s.
  - destruct (Hvar lit) as [v Hv]; [left|].
    assert (Hvar' : ∀ l, l ∈ tr → is_Some (var s l))
      by (intros l Hl; apply Hvar; by right).
    cbn [protect_reasons_from omap list_omap] in *.
    unfold protected_reason at 1 in Hreason.
    unfold protected_reason at 1. rewrite Hv in *. simpl in *.
    case_bool_decide; [by apply IH|].
    destruct (Var.reason v) as [r|]; [|by apply IH].
    destruct (Hreason r) as [c Hc]; [left|].
    rewrite Hc. simpl. rewrite (insert_as_alter _ _ _ _ Hc), IH.
    + by rewrite protected_reason_set_heap.
    + done.
    + intros r' Hr'. rewrite protected_reason_set_heap in Hr'. simpl.
      apply lookup_alter_is_Some, Hreason. by right.
Qed.

Lemma protect_reasons_eval s :
  trail_ok s →
  protect_reasons s =
  Some (set_heap
          (alter_all (Clause.set_reason true) (trail_reasons s) (heap s)) s).
Proof. intros [Hvar Hreason]. by apply protect_reasons_from_eval. Qed.

Lemma trail_state_ok : trail_ok trail_state.
Proof.
  split.
  - apply (proj1 (Forall_forall _ _)). apply (bool_decide_unpack _).
    by vm_compute.
  - apply (proj1 (Forall_forall _ _)). apply (bool_decide_unpack _).
    by vm_compute.
Qed.

Lemma trail_state_registry_ok : registry_ok trail_state.
Proof.
  apply registry_ok_Forall. apply (bool_decide_unpack _). by vm_compute.
Qed.

(** X12: on a trail whose literals have variable records and whose
    reasons own clauses, [protect_reasons] succeeds, sets the [reason]
    flag of exactly the reason clauses of the variables assigned above
    level 0, which makes them uncollectable, and changes nothing else:
    no other clause, no other field of a protected clause, and no other
    member of the solver. *)
Theorem protect_reasons_sets_reason_flags (s : Internal) :
  trail_ok s →
  ∃ s', protect_reasons s = Some s' ∧
    (∀ r, r ∈ trail_reasons s →
       ∃ c, heap s !! r = Some c ∧
            heap s' !! r = Some (Clause.set_reason true c) ∧
            collect (Clause.set_reason true c) = false) ∧
    (∀ p, p ∉ trail_reasons s → heap s' !! p = heap s !! p) ∧
    opts s' = opts s ∧ stats s' = stats s ∧ lim s' = lim s ∧
    inc s' = inc s ∧ clauses s' = clauses s ∧ trail s' = trail s ∧
    vtab s' = vtab s.
Proof.
  intros Hok. rewrite protect_reasons_eval by done.
  eexists. split; [reflexivity|]. simpl. split_and!; try done.
  - intros r Hr. destruct Hok as [_ Hreason].
    destruct (Hreason r Hr) as [c Hc]. exists c.
    rewrite alter_all_lookup, decide_True, Hc by done. done.
  - intros p Hp. by rewrite alter_all_lookup, decide_False.
Qed.

Lemma protect_reasons_sets_reason_flags_witness :
  trail_ok trail_state ∧ trail_reasons trail_state = [1256] ∧
  ∃ s', protect_reasons trail_state = Some s' ∧
    (∀ r, r ∈ trail_reasons trail_state →
       ∃ c, heap trail_state !! r = Some c ∧
            heap s' !! r = Some (Clause.set_reason true c) ∧
            collect (Clause.set_reason true c) = false) ∧
    (∀ p, p ∉ trail_reasons trail_state →
          heap s' !! p = heap trail_state !! p).
Proof.
  split; [exact trail_state_ok|]. split; [reflexivity|].
  destruct (protect_reasons_sets_reason_flags trail_state trail_state_ok)
    as (s' & Hrun & Hset & Hframe & _).
  exists s'. split; [exact Hrun|]. split; [exact Hset|exact Hframe].
Defined.

(** X13: reasons survive a reduction: after [protect_reasons] and the
    policy, every reason clause of a variable assigned above level 0 is
    still in the heap, is not marked by the policy and is not
    collectable. *)
Theorem protected_reasons_survive_marking (sort : sorter) (s : Internal) :
  std_sort_contract sort → registry_ok s → trail_ok s →
  ∃ s1 s2,
    protect_reasons s = Some s1 ∧
    mark_useless_redundant_clauses_as_garbage sort s1 = Some s2 ∧
    ∀ r, r ∈ trail_reasons s →
      ∃ c, heap s2 !! r = Some c ∧ collect c = false ∧ ¬ marked s1 s2 r.
Proof.
  intros Hsort Hok Htrail.
  set (s1 := set_heap
    (alter_all (Clause.set_reason true) (trail_reasons s) (heap s)) s).
  assert (Hlookup : ∀ p, heap s1 !! p =
    if decide (p ∈ trail_reasons s)
    then Clause.set_reason true <$> heap s !! p else heap s !! p).
  { intros p. by apply alter_all_lookup. }
  assert (Hok1 : registry_ok s1).
  { intros p Hp. rewrite Hlookup.
    case_decide; [apply fmap_is_Some|]; by apply Hok. }
  destruct (mark_useless_eval sort s1 Hsort Hok1)
    as (cand & sorted & _ & Hfilter & _ & Hperm & _ & Hrun).
  pose proof (sorted_selected s1 cand sorted Hfilter Hperm) as Hsel.
  exists s1, (reduced_state sorted s1).
  split_and!; [by apply protect_reasons_eval|done|].
  intros r Hr. destruct Htrail as [_ Hreason].
  destruct (Hreason r Hr) as [c Hc].
  assert (Hc1 : heap s1 !! r = Some (Clause.set_reason true c)).
  { by rewrite Hlookup, decide_True, Hc. }
  assert (Hn : ¬ reduction_candidate (Lim.analyzed (lim s1))
                 (Clause.set_reason true c)).
  { intros (_ & _ & ? & _). done. }
  exists (Clause.set_reason true c). split_and!; [|done|].
  - by apply unselected_unchanged.
  - rewrite marked_reduced_state by done.
    intros Hin%(subseteq_take (length sorted / 2))%Hsel%selected_true.
    destruct Hin as (c' & Hc' & Hcand). congruence.
Qed.

Lemma protected_reasons_survive_marking_witness :
  std_sort_contract insertion_sort ∧ registry_ok trail_state ∧
  trail_ok trail_state ∧
  ∃ s1 s2,
    protect_reasons trail_state = Some s1 ∧
    mark_useless_redundant_clauses_as_garbage insertion_sort s1 = Some s2 ∧
    ∃ c, heap s2 !! 1256 = Some c ∧ collect c = false ∧
         ¬ marked s1 s2 1256.
Proof.
  split; [exact insertion_sort_contract|].
  split; [exact trail_state_registry_ok|].
  split; [exact trail_state_ok|].
  destruct (protected_reasons_survive_marking insertion_sort trail_state
              insertion_sort_contract trail_state_registry_ok trail_state_ok)
    as (s1 & s2 & H1 & H2 & Hsurvive).
  exists s1, s2. split; [exact H1|]. split; [exact H2|].
  apply Hsurvive. apply (bool_decide_unpack _). vm_compute. exact I.
Defined.

Lemma unprotect_reasons_from_eval tr s :
  (∀ lit, lit ∈ tr → is_Some (var s lit)) →
  NoDup (omap (protected_reason s) tr) →
  (∀ r, r ∈ omap (protected_reason s) tr →
     ∃ c, heap s !! r = Some c ∧ Clause.reason c = true) →
  unprotect_reasons_from tr s =
  Some (set_heap
          (alter_all (Clause.set_reason false) (omap (protected_reason s) tr)
             (heap s)) s).
Proof.
  revert s. induction tr as [|lit tr IH]; intros s Hvar Hnd Hreason.
  - by destruct s.
  - destruct (Hvar lit) as [v Hv]; [left|].
    assert (Hvar' : ∀ l, l ∈ tr → is_Some (var s l))
      by (intros l Hl; apply Hvar; by right).
    cbn [unprotect_reasons_from omap list_omap] in *.
    unfold protected_reason at 1 in Hreason.
    unfold protected_reason at 1 in Hnd.
    unfold protected_reason at 1. rewrite Hv in *. simpl in *.
    case_bool_decide; [by apply IH|].
    destruct (Var.reason v) as [r|]; [|by apply IH].
    apply NoDup_cons in Hnd as [Hnotin Hnd].
    destruct (Hreason r) as (c & Hc & Hflag); [left|].
    rewrite Hc. simpl. rewrite Hflag.
    rewrite (insert_as_alter _ _ _ _ Hc), IH.
    + by rewrite protected_reason_set_heap.
    + done.
    + by rewrite protected_reason_set_heap.
    + intros r' Hr'. rewrite protected_reason_set_heap in Hr'. simpl.
      rewrite lookup_alter_ne by (intros ->; done).
      apply Hreason. by right.
Qed.

(** X14: protection round trip: when the reason clauses of the variables
    assigned above level 0 are pairwise different and none has its
    [reason] flag set, [unprotect_reasons] after [protect_reasons]
    succeeds and gives back the state before the protection. *)
Theorem unprotect_after_protect (s : Internal) :
  trail_ok s → NoDup (trail_reasons s) →
  (∀ r c, r ∈ trail_reasons s → heap s !! r = Some c →
          Clause.reason c = false) →
  ∃ s1, protect_reasons s = Some s1 ∧ unprotect_reasons s1 = Some s.
Proof.
  intros Hok Hnd Hclear. rewrite protect_reasons_eval by done.
  eexists. split; [reflexivity|]. destruct Hok as [Hvar Hreason].
  unfold unprotect_reasons. cbn [trail set_heap].
  rewrite unprotect_reasons_from_eval.
  - rewrite protected_reason_set_heap. fold (trail_reasons s).
    cbn [heap set_heap].
    assert (Hback :
      alter_all (Clause.set_reason false) (trail_reasons s)
        (alter_all (Clause.set_reason true) (trail_reasons s) (heap s))
      = heap s).
    { apply map_eq. intros p. rewrite !alter_all_lookup by done.
      case_decide as Hp; [|done].
      destruct (heap s !! p) as [c|] eqn:Hc; [|done]. simpl.
      pose proof (Hclear p c Hp Hc) as Hflag.
      destruct c. simpl in Hflag. by subst. }
    rewrite Hback. by destruct s.
  - done.
  - by rewrite protected_reason_set_heap.
  - rewrite protected_reason_set_heap. fold (trail_reasons s).
    intros r Hr. destruct (Hreason r Hr) as [c Hc].
    exists (Clause.set_reason true c). split; [|done].
    cbn [heap set_heap]. by rewrite alter_all_lookup, decide_True, Hc.
Qed.

Lemma unprotect_after_protect_witness :
  trail_ok trail_state ∧ NoDup (trail_reasons trail_state) ∧
  ∃ s1, protect_reasons trail_state = Some s1 ∧
        unprotect_reasons s1 = Some trail_state.
Proof.
  assert (Hnd : NoDup (trail_reasons trail_state)).
  { apply (bool_decide_unpack _). by vm_compute. }
  split; [exact trail_state_ok|]. split; [exact Hnd|].
  apply (unprotect_after_protect trail_state trail_state_ok Hnd).
  intros r c Hr Hc.
  apply list_elem_of_singleton in Hr. subst r.
  injection Hc as <-. reflexivity.
Defined.

Lemma unprotect_fails_on_cleared tr s r :
  r ∈ omap (protected_reason s) tr →
  (∀ c, heap s !! r = Some c → Clause.reason c = false) →
  unprotect_reasons_from tr s = None.
Proof.
  revert s. induction tr as [|lit tr IH]; intros s Hr Hclear.
  - by apply elem_of_nil in Hr.
  - cbn [unprotect_reasons_from omap list_omap] in *.
    unfold protected_reason at 1 in Hr.
    destruct (var s lit) as [v|]; [|done]. simpl in *.
    case_bool_decide; [by apply IH|].
    destruct (Var.reason v) as [r0|]; [|by apply IH].
    destruct (heap s !! r0) as [c0|] eqn:Hc0; [|done]. simpl.
    destruct (Clause.reason c0) eqn:Hflag; [|done].
    apply elem_of_cons in Hr as [->|Hr].
    { rewrite (Hclear c0 Hc0) in Hflag. done. }
    apply IH; [by rewrite protected_reason_set_heap|].
    intros c. simpl. destruct (decide (r0 = r)) as [->|Hne].
    + rewrite (Hclear c0 Hc0) in Hflag. done.
    + rewrite lookup_insert_ne by done. apply Hclear.
Qed.

Lemma unprotect_fails_on_shared tr s :
  ¬ NoDup (omap (protected_reason s) tr) →
  unprotect_reasons_from tr s = None.
Proof.
  revert s. induction tr as [|lit tr IH]; intros s Hnd.
  - destruct Hnd. constructor.
  - cbn [unprotect_reasons_from omap list_omap] in *.
    unfold protected_reason at 1 in Hnd.
    destruct (var s lit) as [v|]; [|done]. simpl in *.
    case_bool_decide; [by apply IH|].
    destruct (Var.reason v) as [r0|]; [|by apply IH].
    destruct (heap s !! r0) as [c0|] eqn:Hc0; [|done]. simpl.
    destruct (Clause.reason c0) eqn:Hflag; [|done].
    destruct (decide (r0 ∈ omap (protected_reason s) tr)) as [Hin|Hnotin].
    + apply (unprotect_fails_on_cleared _ _ r0).
      * by rewrite protected_reason_set_heap.
      * intros c. simpl. rewrite lookup_insert_eq. by intros [= <-].
    + apply IH. rewrite protected_reason_set_heap.
      intros Hnd'. apply Hnd. by constructor.
Qed.

Lemma protect_reasons_from_frame tr s s1 :
  protect_reasons_from tr s = Some s1 →
  vtab s1 = vtab s ∧ trail s1 = trail s.
Proof.
  revert s. induction tr as [|lit tr IH]; intros s Hrun; simpl in Hrun.
  - by injection Hrun as <-.
  - destruct (var s lit) as [v|]; [|done]. simpl in Hrun.
    case_bool_decide; [by apply IH|].
    destruct (Var.reason v) as [r|]; [|by apply IH].
    destruct (heap s !! r) as [c|]; [|done]. simpl in Hrun.
    by apply IH in Hrun.
Qed.

(** X15: [unprotect_reasons] fails its assertion whenever two trail
    literals assigned above level 0 have the same reason clause: the first
    visit clears the flag the second one asserts; in particular it then
    fails after a successful [protect_reasons]. *)
Theorem unprotect_fails_on_shared_reason (s : Internal) :
  ¬ NoDup (trail_reasons s) →
  unprotect_reasons s = None ∧
  ∀ s1, protect_reasons s = Some s1 → unprotect_reasons s1 = None.
Proof.
  intros Hnd. split; [by apply unprotect_fails_on_shared|].
  intros s1 [Hvtab Htrail]%protect_reasons_from_frame.
  apply unprotect_fails_on_shared.
  assert (Heq : protected_reason s1 = protected_reason s).
  { unfold protected_reason, var. by rewrite Hvtab. }
  by rewrite Heq, Htrail.
Qed.

Lemma unprotect_fails_on_shared_reason_witness :
  trail_reasons shared_reason_state = [1256; 1256] ∧
  is_Some (protect_reasons shared_reason_state) ∧
  ∀ s1, protect_reasons shared_reason_state = Some s1 →
        unprotect_reasons s1 = None.
Proof.
  split; [reflexivity|]. split; [vm_compute; eauto|].
  apply (unprotect_fails_on_shared_reason shared_reason_state).
  intros Hnd. apply NoDup_cons in Hnd as [Hnotin _].
  apply Hnotin. left.
Defined.

(** ** Failure of the comparison functors *)

(** X16: on two allocated clauses, [analyzed_earlier] fails exactly when
    one of them lacks the [analyzed] field, while [less_usefull] fails
    exactly when, in addition, the glues are equal: with different glues
    it decides without consulting [analyzed ()]. *)
Theorem comparison_failures (h : gmap Z Clause.t) (a b : Z)
    (ca cb : Clause.t) :
  h !! a = Some ca → h !! b = Some cb →
  (analyzed_earlier h a b = None ↔
   Clause.have_analyzed ca = false ∨ Clause.have_analyzed cb = false) ∧
  (less_usefull h a b = None ↔
   Clause.glue ca = Clause.glue cb ∧
   (Clause.have_analyzed ca = false ∨ Clause.have_analyzed cb = false)) ∧
  (Clause.glue cb < Clause.glue ca → less_usefull h a b = Some true) ∧
  (Clause.glue ca < Clause.glue cb → less_usefull h a b = Some false).
Proof.
  intros Ha Hb.
  assert (Hae : analyzed_earlier h a b = None ↔
    Clause.have_analyzed ca = false ∨ Clause.have_analyzed cb = false).
  { unfold analyzed_earlier, Clause.analyzed. rewrite Ha, Hb. simpl.
    destruct (Clause.have_analyzed ca), (Clause.have_analyzed cb); simpl;
      intuition congruence. }
  split; [done|]. unfold less_usefull. rewrite Ha, Hb. simpl.
  split_and!.
  - repeat case_bool_decide; rewrite ?Hae; split;
      try done; try lia; try (by intros [? ?]).
    intros ?. split; [lia|done].
  - intros Hlt. by rewrite bool_decide_eq_true_2.
  - intros Hlt. rewrite bool_decide_eq_false_2 by lia.
    by rewrite bool_decide_eq_true_2.
Qed.

Lemma comparison_failures_witness :
  analyzed_earlier (heap (mixed_state true)) 1000 1064 = None ∧
  less_usefull (heap (mixed_state true)) 1000 1064 = Some false.
Proof.
  destruct (comparison_failures (heap (mixed_state true)) 1000 1064
              binary_original (learned 10 3) eq_refl eq_refl)
    as (Hae & _ & _ & Hlu).
  split.
  - apply Hae. left. reflexivity.
  - apply Hlu. reflexivity.
Defined.
